(** * pydmft: the bare-bones Hartree DMFT solver of [solver_iq-3]

    A shallow embedding of the notebook's code cells ([eps_k], [get_hyb_fm],
    [Model], [ImpuritySolver], [SelfConsistency], [main]) and the properties
    of the specification proved about them.

    Conventions of the embedding.
    - Python floats are exact reals [R]; [complex] / [numpy.complex128] values
      are pairs of reals with the usual field operations.  Rounding, signed
      zeros, Inf and NaN are outside the model.
    - A numpy array of one dimension is a [list]; reading [a[n]] and writing
      [a[n] = v] out of range raise [IndexError].
    - Exceptions are explicit: code that can raise returns a [result].
    - [scipy.integrate.dblquad] is a library primitive; the code is embedded
      over an arbitrary integrator, a Section variable. *)

From Stdlib Require Import Reals Lra Lia List Arith.
From Stdlib Require Import FunctionalExtensionality ClassicalEpsilon.
From stdpp Require Import base list.

Local Open Scope R_scope.

(** ** Complex numbers *)

Module Cplx.

Record C : Type := mkC { Re : R; Im : R }.

Definition RtoC (x : R) : C := mkC x 0.
Definition C0 : C := RtoC 0.
Definition C1 : C := RtoC 1.
(** The literal [1.0j]. *)
Definition Ci : C := mkC 0 1.

Definition Cadd (a b : C) : C := mkC (Re a + Re b) (Im a + Im b).
Definition Csub (a b : C) : C := mkC (Re a - Re b) (Im a - Im b).
Definition Cmul (a b : C) : C :=
  mkC (Re a * Re b - Im a * Im b) (Re a * Im b + Im a * Re b).
Definition Cnorm2 (a : C) : R := Re a * Re a + Im a * Im a.
Definition Cdiv (a b : C) : C :=
  mkC ((Re a * Re b + Im a * Im b) / Cnorm2 b)
      ((Im a * Re b - Re a * Im b) / Cnorm2 b).

End Cplx.
Import Cplx.

#[global] Instance C_inhabited : Inhabited C := populate C0.

(** ** Exceptions *)

Inductive exn : Type :=
| IndexError
| ZeroDivisionError.

Inductive result (A : Type) : Type :=
| Ok (a : A)
| Raise (e : exn).
Arguments Ok {A} a.
Arguments Raise {A} e.

Definition bind {A B} (r : result A) (k : A -> result B) : result B :=
  match r with
  | Ok a => k a
  | Raise e => Raise e
  end.

Notation "'let*' x ':=' e 'in' k" := (bind e (fun x => k))
  (at level 10, x name, e at level 100, k at level 200).

(** ** Arrays and loops *)

Section Arrays.
Context {A : Type}.

(** [a[n]] *)
Definition getitem (a : list A) (n : nat) : result A :=
  match a !! n with
  | Some x => Ok x
  | None => Raise IndexError
  end.

(** [a[n] = v] *)
Definition setitem (a : list A) (n : nat) (v : A) : result (list A) :=
  if decide (n < length a)%nat then Ok (<[n := v]> a) else Raise IndexError.

End Arrays.

(** [for n in range(stop): st = body n st], started at index [start]. *)
Fixpoint for_from {St : Type} (start count : nat)
         (body : nat -> St -> result St) (st : St) : result St :=
  match count with
  | O => Ok st
  | S count' =>
      let* st' := body start st in for_from (S start) count' body st'
  end.

Definition for_range {St : Type} (stop : nat)
           (body : nat -> St -> result St) (st : St) : result St :=
  for_from 0 stop body st.

(** [x / y] on Python floats. *)
Definition float_div (x y : R) : result R :=
  if Req_dec_T y 0 then Raise ZeroDivisionError else Ok (x / y).

(** [z / y] with [z] a Python complex and [y] a Python float. *)
Definition complex_div_float (z : C) (y : R) : result C :=
  if Req_dec_T y 0 then Raise ZeroDivisionError else Ok (Cdiv z (RtoC y)).

(** ** The dispersion relation *)

(** [eps_k], the function of the second code cell. *)
Definition eps_k (kx ky : R) : R := -2 * (cos kx + cos ky).

(** The lambda [eps_k_squared] of [get_hyb_fm]. *)
Definition eps_k_squared (kx ky : R) : R := eps_k kx ky * eps_k kx ky.

(** ** The model *)

Record Model : Type := mkModel {
  t : R;          (* hopping, usually set to -1.0 *)
  beta : R;       (* 1/Temperature *)
  U : R;          (* Hubbard interaction *)
  hyb : list C    (* hybridization *)
}.

(** [Model.eps_k] *)
Definition Model_eps_k (self : Model) (kx ky : R) : R :=
  -2 * (cos kx + cos ky).

(** The value of the expression [1.0j * (2.0 * n + 1.0) * np.pi / beta]
    when the division does not raise. *)
Definition iwn_val (beta : R) (n : nat) : C :=
  Cdiv (Cmul (Cmul Ci (RtoC (2 * INR n + 1))) (RtoC PI)) (RtoC beta).

(** [iwn = 1.0j * (2.0 * n + 1.0) * np.pi / beta], a division of Python
    scalars. *)
Definition iwn_of (beta : R) (n : nat) : result C :=
  complex_div_float (Cmul (Cmul Ci (RtoC (2 * INR n + 1))) (RtoC PI)) beta.

(** ** The impurity solver *)

(** [ImpuritySolver.solve] *)
Definition solve (model : Model) : result (list C) :=
  let green_impurity := replicate (length (hyb model)) C0 in
  let self_energy :=
    (fun one => Cmul (RtoC (U model / 2)) one)
      <$> replicate (length green_impurity) C1 in
  for_range (length green_impurity)
    (fun n green_impurity =>
       let* iwn := iwn_of (beta model) n in
       let* h := getitem (hyb model) n in
       let* s := getitem self_energy n in
       setitem green_impurity n (Cdiv C1 (Csub (Csub iwn h) s)))
    green_impurity.

(** ** Code over the integration primitive *)

Section Integrator.

(** [dblquad func a b gfun hfun] stands for
    [scipy.integrate.dblquad(func, a, b, gfun, hfun)[0]]: the integral of
    [func y x] for [x] from [a] to [b] and [y] from [gfun x] to [hfun x].
    The library calls [func] with the inner variable first. *)
Variable dblquad : (R -> R -> R) -> R -> R -> (R -> R) -> (R -> R) -> R.

(** [get_hyb_fm] *)
Definition get_hyb_fm : R :=
  let kx_limit_low := - PI in
  let kx_limit_high := PI in
  let ky_limit_low := fun kx : R => - PI in
  let ky_limit_high := fun kx : R => PI in
  let int_eps_k :=
    dblquad eps_k kx_limit_low kx_limit_high ky_limit_low ky_limit_high in
  let int_eps_k_squared :=
    dblquad eps_k_squared kx_limit_low kx_limit_high
            ky_limit_low ky_limit_high in
  1 / (2 * PI) ^ 2 * (int_eps_k_squared - int_eps_k).

(** [SelfConsistency.green_lattice_scalar_real], on its domain.  The method
    raises [ZeroDivisionError] for [beta = 0] and [IndexError] for [n]
    outside [self_energy]; an integrand of [dblquad] is a function to the
    reals, so the value is given here for [beta <> 0] and [n] inside
    [self_energy] only, which is how the second loop of
    [run_selfconsistency] calls it (the first loop has evaluated the same
    [iwn] and has built [self_energy] of the length of the loop).  Statements
    about it outside that domain say nothing about the code. *)
Definition green_lattice_scalar_real
           (model : Model) (kx ky : R) (self_energy : list C) (n : nat) : R :=
  let iwn := iwn_val (beta model) n in
  Re (Cdiv C1 (Csub (Csub iwn (RtoC (Model_eps_k model kx ky)))
                    (self_energy !!! n))).

(** [SelfConsistency.green_lattice_scalar_imag], on the same domain. *)
Definition green_lattice_scalar_imag
           (model : Model) (kx ky : R) (self_energy : list C) (n : nat) : R :=
  let iwn := iwn_val (beta model) n in
  Im (Cdiv C1 (Csub (Csub iwn (RtoC (Model_eps_k model kx ky)))
                    (self_energy !!! n))).

(** First loop of [run_selfconsistency]: the self-energy implied by the
    impurity Green function. *)
Definition extract_self_energy
           (model : Model) (green_impurity : list C) : result (list C) :=
  let self_energy := replicate (length green_impurity) C0 in
  for_range (length green_impurity)
    (fun n self_energy =>
       let* iwn := iwn_of (beta model) n in
       let* h := getitem (hyb model) n in
       let* g := getitem green_impurity n in
       setitem self_energy n (Csub (Csub iwn h) (Cdiv C1 g)))
    self_energy.

(** Second loop: the lattice Green function, real and imaginary part
    integrated separately. *)
Definition lattice_green
           (model : Model) (green_impurity self_energy : list C)
  : result (list C) :=
  let green_impurity_new := replicate (length green_impurity) C0 in
  let kx_limit_low := - PI in
  let kx_limit_high := PI in
  let ky_limit_low := fun kx : R => - PI in
  let ky_limit_high := fun kx : R => PI in
  for_range (length green_impurity_new)
    (fun n green_impurity_new =>
       let* green_impurity_new :=
         setitem green_impurity_new n
           (RtoC (dblquad
                    (fun kx ky =>
                       green_lattice_scalar_real model kx ky self_energy n)
                    kx_limit_low kx_limit_high ky_limit_low ky_limit_high)) in
       let* g := getitem green_impurity_new n in
       let* green_impurity_new :=
         setitem green_impurity_new n
           (Cadd g
              (Cmul Ci
                 (RtoC (dblquad
                          (fun kx ky =>
                             green_lattice_scalar_imag model kx ky
                                                       self_energy n)
                          kx_limit_low kx_limit_high
                          ky_limit_low ky_limit_high)))) in
       let* g := getitem green_impurity_new n in
       setitem green_impurity_new n (Cdiv g (RtoC ((2 * PI) ^ 2))))
    green_impurity_new.

(** Third loop: the new hybridization. *)
Definition extract_new_hyb
           (model : Model) (green_impurity green_impurity_new
                                           self_energy : list C)
  : result (list C) :=
  let hyb_new := replicate (length green_impurity) C0 in
  for_range (length hyb_new)
    (fun n hyb_new =>
       let* iwn := iwn_of (beta model) n in
       let* g := getitem green_impurity_new n in
       let* s := getitem self_energy n in
       setitem hyb_new n (Csub (Csub iwn (Cdiv C1 g)) s))
    hyb_new.

(** [SelfConsistency(model, green_impurity).run_selfconsistency()] *)
Definition run_selfconsistency
           (model : Model) (green_impurity : list C) : result (list C) :=
  let* self_energy := extract_self_energy model green_impurity in
  let* green_impurity_new :=
    lattice_green model green_impurity self_energy in
  extract_new_hyb model green_impurity green_impurity_new self_energy.

(** The list comprehension
    [[(2.0*n + 1)*np.pi/beta for n in range(n_freq)]]. *)
Fixpoint frequencies_from (beta : R) (start count : nat)
  : result (list R) :=
  match count with
  | O => Ok []
  | S count' =>
      let* w := float_div ((2 * INR start + 1) * PI) beta in
      let* ws := frequencies_from beta (S start) count' in
      Ok (w :: ws)
  end.

(** The body of the loop of [main], lines 297 to 301, with the two objects
    it builds, the solver and the self-consistency step, as arguments. *)
Definition pass_with (solver : Model -> result (list C))
           (selfcons : Model -> list C -> result (list C))
           (t beta U : R) (hyb : list C) : result (list C) :=
  let model := mkModel t beta U hyb in
  let* green_impurity := solver model in
  selfcons model green_impurity.

(** The body of [main], with its five local constants and the same two
    objects as arguments. *)
Definition driver_with (solver : Model -> result (list C))
           (selfcons : Model -> list C -> result (list C))
           (n_freq : nat) (t beta U : R) (iter_max : nat)
  : result (list R * list C) :=
  let hyb := replicate n_freq C0 in
  let* hyb :=
    for_range iter_max (fun ii hyb => pass_with solver selfcons t beta U hyb)
              hyb in
  let* frequencies := frequencies_from beta 0 n_freq in
  Ok (frequencies, hyb).

(** The body of the loop of [main]: [ImpuritySolver(model).solve()] and
    [SelfConsistency(model, green_impurity).run_selfconsistency()]. *)
Definition iteration (t beta U : R) (hyb : list C) : result (list C) :=
  pass_with solve run_selfconsistency t beta U hyb.

(** [main], with its five local constants as arguments. *)
Definition main_with (n_freq : nat) (t beta U : R) (iter_max : nat)
  : result (list R * list C) :=
  driver_with solve run_selfconsistency n_freq t beta U iter_max.

(** [main] *)
Definition main : result (list R * list C) :=
  main_with 200 (-1) 10 4 20.

End Integrator.

(** ** Auxiliary definitions *)

(** The array obtained from [a] by the writes [a[n] = g n] for
    [n = start, ..., start + count - 1], in that order. *)
Fixpoint fill {A : Type} (g : nat -> A) (start count : nat) (a : list A)
  : list A :=
  match count with
  | O => a
  | S count' => fill g (S start) count' (<[start := g start]> a)
  end.

(** The entry the solver writes at index [n]. *)
Definition green_entry (model : Model) (n : nat) : C :=
  Cdiv C1 (Csub (Csub (iwn_val (beta model) n) (hyb model !!! n))
                (RtoC (U model / 2))).

Definition sigma_entry (model : Model) (green_impurity : list C) (n : nat)
  : C :=
  Csub (Csub (iwn_val (beta model) n) (hyb model !!! n))
       (Cdiv C1 (green_impurity !!! n)).

Definition hyb_entry (model : Model) (green_impurity_new self_energy : list C)
           (n : nat) : C :=
  Csub (Csub (iwn_val (beta model) n) (Cdiv C1 (green_impurity_new !!! n)))
       (self_energy !!! n).

(** The entry the second loop leaves at index [n]. *)
Definition lattice_entry
           (dblquad : (R -> R -> R) -> R -> R -> (R -> R) -> (R -> R) -> R)
           (model : Model) (self_energy : list C) (n : nat) : C :=
  Cdiv (Cadd (RtoC (dblquad
                      (fun kx ky =>
                         green_lattice_scalar_real model kx ky self_energy n)
                      (- PI) PI (fun _ => - PI) (fun _ => PI)))
             (Cmul Ci
                (RtoC (dblquad
                         (fun kx ky =>
                            green_lattice_scalar_imag model kx ky
                                                      self_energy n)
                         (- PI) PI (fun _ => - PI) (fun _ => PI)))))
       (RtoC ((2 * PI) ^ 2)).

(** One pass of the loop of [main] that keeps its argument when the pass
    raises. *)
Definition pass (dblquad : (R -> R -> R) -> R -> R -> (R -> R) -> (R -> R) -> R)
           (hop b u : R) (h : list C) : list C :=
  match iteration dblquad hop b u h with
  | Ok h' => h'
  | Raise _ => h
  end.

(** A one-point quadrature rule, the simplest integrator. *)
Definition midpoint_rule (func : R -> R -> R) (a b : R) (gfun hfun : R -> R)
  : R :=
  let x := (a + b) / 2 in
  let y := (gfun x + hfun x) / 2 in
  (b - a) * (hfun x - gfun x) * func y x.

Definition example_model : Model := mkModel (-1) 10 4 [C0; C0].

(** ** Exact integration *)







(** ** Integrators with positive weights *)

(** A quadrature rule with positive weights returns a negative value on an
    integrand that is negative everywhere; so does the exact integral. *)
Definition negative_preserving
           (dblquad : (R -> R -> R) -> R -> R -> (R -> R) -> (R -> R) -> R)
  : Prop :=
  forall func : R -> R -> R,
    (forall y x, func y x < 0) ->
    dblquad func (- PI) PI (fun _ => - PI) (fun _ => PI) < 0.

(** The lattice Green function computed from the Hartree self-energy
    [U/2] on [n_freq] frequencies; it reads neither the hopping nor the
    hybridization of the model. *)
Definition hartree_lattice
           (dblquad : (R -> R -> R) -> R -> R -> (R -> R) -> (R -> R) -> R)
           (b u : R) (n_freq n : nat) : C :=
  lattice_entry dblquad (mkModel 0 b u []) (replicate n_freq (RtoC (u / 2))) n.

(** The hybridization the self-consistency step derives from it. *)
Definition hartree_hyb
           (dblquad : (R -> R -> R) -> R -> R -> (R -> R) -> (R -> R) -> R)
           (b u : R) (n_freq : nat) : list C :=
  fill (fun n => Csub (Csub (iwn_val b n)
                            (Cdiv C1 (hartree_lattice dblquad b u n_freq n)))
                      (RtoC (u / 2)))
       0 n_freq (replicate n_freq C0).

(** No denominator [i w_n - hyb[n] - U/2] of the solver vanishes. *)
Definition regular (b u : R) (h : list C) : Prop :=
  forall n d,
    h !! n = Some d ->
    Csub (Csub (mkC 0 ((2 * INR n + 1) * PI / b)) d) (mkC (u / 2) 0) <> C0.

(** The integrator that calls its integrand with the outer variable first,
    the opposite of the convention of [dblquad]. *)
Definition swap_arguments
           (dblquad : (R -> R -> R) -> R -> R -> (R -> R) -> (R -> R) -> R)
  : (R -> R -> R) -> R -> R -> (R -> R) -> (R -> R) -> R :=
  fun func => dblquad (fun y x => func x y).

(** ** Complex arithmetic *)

Lemma C_eq (a b : C) : Re a = Re b -> Im a = Im b -> a = b.
Proof. destruct a, b; simpl; intros -> ->; reflexivity. Qed.

Lemma Cnorm2_pos (a : C) : a <> C0 -> 0 < Cnorm2 a.
Proof.
  intros Ha. unfold Cnorm2.
  destruct (Req_dec_T (Re a) 0) as [Hr|Hr];
    destruct (Req_dec_T (Im a) 0) as [Hi|Hi]; try nra.
  exfalso. apply Ha. apply C_eq; simpl; assumption.
Qed.

(** [1/(1/z) = z] away from zero. *)
Lemma Cdiv_1_involutive (z : C) : z <> C0 -> Cdiv C1 (Cdiv C1 z) = z.
Proof.
  intros Hz. pose proof (Cnorm2_pos z Hz) as Hn.
  unfold Cdiv, C1, RtoC; simpl.
  assert (Hk : Cnorm2 (mkC ((1 * Re z + 0 * Im z) / Cnorm2 z)
                           ((0 * Re z - 1 * Im z) / Cnorm2 z))
               = / Cnorm2 z).
  { unfold Cnorm2 at 1; simpl. unfold Cnorm2 in *. field. lra. }
  rewrite Hk. apply C_eq; simpl; unfold Cnorm2 in *; field; lra.
Qed.

Lemma Csub_cancel (w d g : C) : Csub (Csub w g) (Csub (Csub w d) g) = d.
Proof. apply C_eq; simpl; ring. Qed.

(** ** Loops that fill an array *)

Section FillLoops.
Context {A : Type}.
Implicit Types (a : list A) (g : nat -> A).

Lemma getitem_Ok a n x : a !! n = Some x -> getitem a n = Ok x.
Proof. unfold getitem. intros ->. reflexivity. Qed.

Lemma setitem_Ok a n v :
  (n < length a)%nat -> setitem a n v = Ok (<[n := v]> a).
Proof. unfold setitem. intros Hn. case_decide; [reflexivity | lia]. Qed.

Lemma getitem_insert a n v :
  (n < length a)%nat -> getitem (<[n := v]> a) n = Ok v.
Proof.
  intros Hn. apply getitem_Ok. apply list_lookup_insert_eq. assumption.
Qed.

Lemma fill_length g start count a :
  length (fill g start count a) = length a.
Proof.
  revert start a. induction count as [|count IH]; intros start a; simpl.
  - reflexivity.
  - rewrite IH. apply length_insert.
Qed.

Lemma fill_lookup g start count a n :
  (start + count <= length a)%nat ->
  fill g start count a !! n =
    if decide (start <= n < start + count)%nat then Some (g n) else a !! n.
Proof.
  revert start a. induction count as [|count IH]; intros start a Hlen; simpl.
  - case_decide; [lia | reflexivity].
  - rewrite IH by (rewrite length_insert; lia).
    destruct (decide (n = start)) as [->|Hne].
    + rewrite list_lookup_insert_eq by lia.
      repeat case_decide; try lia; reflexivity.
    + rewrite list_lookup_insert_ne by congruence.
      repeat case_decide; try lia; reflexivity.
Qed.

Lemma fill_all g a n :
  (n < length a)%nat -> fill g 0 (length a) a !! n = Some (g n).
Proof.
  intros Hn. rewrite fill_lookup by lia. case_decide; [reflexivity | lia].
Qed.

(** A loop whose body performs the single write [a[n] = g n] on every array
    of the right length computes [fill]. *)
Lemma for_from_fill g (body : nat -> list A -> result (list A)) len :
  forall count start a,
    (forall n a', (start <= n < start + count)%nat -> length a' = len ->
                  body n a' = Ok (<[n := g n]> a')) ->
    length a = len ->
    for_from start count body a = Ok (fill g start count a).
Proof.
  induction count as [|count IH]; intros start a Hbody Hlen; simpl.
  - reflexivity.
  - rewrite Hbody by (assumption || lia). simpl.
    apply IH.
    + intros n a' Hn Ha'. apply Hbody; [lia | assumption].
    + rewrite length_insert. assumption.
Qed.

Lemma for_range_fill g (body : nat -> list A -> result (list A)) a :
  (forall n a', (n < length a)%nat -> length a' = length a ->
                body n a' = Ok (<[n := g n]> a')) ->
  for_range (length a) body a = Ok (fill g 0 (length a) a).
Proof.
  intros Hbody. unfold for_range. apply for_from_fill with (len := length a).
  - intros n a' Hn Ha'. apply Hbody; [lia | assumption].
  - reflexivity.
Qed.

End FillLoops.

(** ** Matsubara frequencies *)

Lemma iwn_val_eq (b : R) (n : nat) :
  b <> 0 -> iwn_val b n = mkC 0 ((2 * INR n + 1) * PI / b).
Proof.
  intros Hb. unfold iwn_val, Cdiv, Cmul, Ci, RtoC, Cnorm2; simpl.
  apply C_eq; simpl; field; assumption.
Qed.

Lemma iwn_of_Ok (b : R) (n : nat) : b <> 0 -> iwn_of b n = Ok (iwn_val b n).
Proof.
  intros Hb. unfold iwn_of, complex_div_float.
  destruct (Req_dec_T b 0) as [E|_]; [contradiction | reflexivity].
Qed.

Lemma iwn_of_zero (n : nat) : iwn_of 0 n = Raise ZeroDivisionError.
Proof.
  unfold iwn_of, complex_div_float.
  destruct (Req_dec_T 0 0) as [_|E]; [reflexivity | contradiction].
Qed.

(** ** The solver in closed form *)

Lemma hartree_entry (u : R) (len n : nat) :
  (n < len)%nat ->
  ((fun one => Cmul (RtoC (u / 2)) one) <$> replicate len C1) !! n
  = Some (RtoC (u / 2)).
Proof.
  intros Hn. rewrite list_lookup_fmap, lookup_replicate_2 by assumption.
  simpl. f_equal. apply C_eq; simpl; ring.
Qed.

Lemma solve_fill (model : Model) :
  beta model <> 0 ->
  solve model =
    Ok (fill (green_entry model) 0 (length (hyb model))
             (replicate (length (hyb model)) C0)).
Proof.
  intros Hb. unfold solve.
  set (a0 := replicate (length (hyb model)) C0).
  assert (Hlen : length a0 = length (hyb model))
    by apply length_replicate.
  transitivity (Ok (fill (green_entry model) 0 (length a0) a0));
    [| rewrite Hlen; reflexivity].
  apply for_range_fill. intros n a' Hn Ha'.
  assert (Hn' : (n < length (hyb model))%nat) by lia.
  rewrite iwn_of_Ok by assumption. simpl.
  destruct (lookup_lt_is_Some_2 (hyb model) n Hn') as [d Hd].
  rewrite (getitem_Ok _ _ _ Hd). simpl.
  rewrite (getitem_Ok _ _ _ (hartree_entry (U model) _ n Hn)). simpl.
  rewrite setitem_Ok by lia.
  unfold green_entry. rewrite (list_lookup_total_correct _ _ _ Hd).
  reflexivity.
Qed.

Lemma solve_Ok (model : Model) :
  beta model <> 0 ->
  exists green_impurity,
    solve model = Ok green_impurity
    /\ length green_impurity = length (hyb model)
    /\ forall n, (n < length (hyb model))%nat ->
                 green_impurity !! n = Some (green_entry model n).
Proof.
  intros Hb. eexists. split; [apply solve_fill; assumption |].
  split; [rewrite fill_length; apply length_replicate |].
  intros n Hn.
  rewrite <- (length_replicate (length (hyb model)) C0) at 1.
  apply fill_all. rewrite length_replicate. assumption.
Qed.

Lemma solve_length (model : Model) (g : list C) :
  solve model = Ok g -> beta model <> 0 -> length g = length (hyb model).
Proof.
  intros Hs Hb. rewrite solve_fill in Hs by assumption.
  injection Hs as <-. rewrite fill_length. apply length_replicate.
Qed.

(** ** The three loops of the self-consistency step *)

Lemma fill_eq_of_lookup {A : Type} (g : nat -> A) (count : nat)
      (a l : list A) :
  count = length a ->
  length l = length a ->
  (forall n x, l !! n = Some x -> g n = x) ->
  fill g 0 count a = l.
Proof.
  intros -> Hlen Hl. apply list_eq. intros n.
  destruct (decide (n < length a)%nat) as [Hn|Hn].
  - rewrite fill_all by assumption.
    destruct (lookup_lt_is_Some_2 l n ltac:(lia)) as [x Hx].
    rewrite Hx. f_equal. apply Hl. assumption.
  - rewrite !lookup_ge_None_2; [reflexivity | lia |].
    rewrite fill_length. lia.
Qed.

Lemma extract_self_energy_fill (model : Model) (green_impurity : list C) :
  beta model <> 0 ->
  (length green_impurity <= length (hyb model))%nat ->
  extract_self_energy model green_impurity =
    Ok (fill (sigma_entry model green_impurity) 0 (length green_impurity)
             (replicate (length green_impurity) C0)).
Proof.
  intros Hb Hle. unfold extract_self_energy.
  set (a0 := replicate (length green_impurity) C0).
  assert (Hlen : length a0 = length green_impurity)
    by apply length_replicate.
  transitivity
    (Ok (fill (sigma_entry model green_impurity) 0 (length a0) a0));
    [| rewrite Hlen; reflexivity].
  rewrite <- Hlen.
  apply for_range_fill. intros n a' Hn Ha'.
  rewrite iwn_of_Ok by assumption. simpl.
  destruct (lookup_lt_is_Some_2 (hyb model) n ltac:(lia)) as [d Hd].
  destruct (lookup_lt_is_Some_2 green_impurity n ltac:(lia)) as [g Hg].
  rewrite (getitem_Ok _ _ _ Hd). simpl.
  rewrite (getitem_Ok _ _ _ Hg). simpl.
  rewrite setitem_Ok by lia.
  unfold sigma_entry.
  rewrite (list_lookup_total_correct _ _ _ Hd),
          (list_lookup_total_correct _ _ _ Hg).
  reflexivity.
Qed.

Lemma extract_new_hyb_fill
      (model : Model) (green_impurity green_impurity_new self_energy : list C) :
  beta model <> 0 ->
  (length green_impurity <= length green_impurity_new)%nat ->
  (length green_impurity <= length self_energy)%nat ->
  extract_new_hyb model green_impurity green_impurity_new self_energy =
    Ok (fill (hyb_entry model green_impurity_new self_energy) 0
             (length green_impurity)
             (replicate (length green_impurity) C0)).
Proof.
  intros Hb Hle1 Hle2. unfold extract_new_hyb.
  set (a0 := replicate (length green_impurity) C0).
  assert (Hlen : length a0 = length green_impurity)
    by apply length_replicate.
  transitivity
    (Ok (fill (hyb_entry model green_impurity_new self_energy) 0
              (length a0) a0));
    [| rewrite Hlen; reflexivity].
  apply for_range_fill. intros n a' Hn Ha'.
  rewrite iwn_of_Ok by assumption. simpl.
  destruct (lookup_lt_is_Some_2 green_impurity_new n ltac:(lia)) as [g Hg].
  destruct (lookup_lt_is_Some_2 self_energy n ltac:(lia)) as [s Hs].
  rewrite (getitem_Ok _ _ _ Hg). simpl.
  rewrite (getitem_Ok _ _ _ Hs). simpl.
  rewrite setitem_Ok by lia.
  unfold hyb_entry.
  rewrite (list_lookup_total_correct _ _ _ Hg),
          (list_lookup_total_correct _ _ _ Hs).
  reflexivity.
Qed.

Lemma lattice_green_fill dblquad (model : Model)
      (green_impurity self_energy : list C) :
  lattice_green dblquad model green_impurity self_energy =
    Ok (fill (lattice_entry dblquad model self_energy) 0
             (length green_impurity)
             (replicate (length green_impurity) C0)).
Proof.
  unfold lattice_green.
  set (a0 := replicate (length green_impurity) C0).
  assert (Hlen : length a0 = length green_impurity)
    by apply length_replicate.
  transitivity
    (Ok (fill (lattice_entry dblquad model self_energy) 0 (length a0) a0));
    [| rewrite Hlen; reflexivity].
  apply for_range_fill. intros n a' Hn Ha'.
  rewrite setitem_Ok by lia. simpl.
  rewrite getitem_insert by lia. simpl.
  rewrite setitem_Ok by (rewrite length_insert; lia). simpl.
  rewrite list_insert_insert_eq.
  rewrite getitem_insert by lia. simpl.
  rewrite setitem_Ok by (rewrite length_insert; lia).
  rewrite list_insert_insert_eq. reflexivity.
Qed.

Lemma run_selfconsistency_Ok dblquad (model : Model) (green_impurity : list C) :
  beta model <> 0 ->
  (length green_impurity <= length (hyb model))%nat ->
  exists hyb_new,
    run_selfconsistency dblquad model green_impurity = Ok hyb_new
    /\ length hyb_new = length green_impurity.
Proof.
  intros Hb Hle. unfold run_selfconsistency.
  rewrite extract_self_energy_fill by assumption. simpl.
  rewrite lattice_green_fill. simpl.
  rewrite extract_new_hyb_fill;
    [| assumption | rewrite fill_length, length_replicate; lia ..].
  eexists. split; [reflexivity |].
  rewrite fill_length. apply length_replicate.
Qed.

(** ** Properties of the impurity solver *)

(** C1.  For a model with [beta > 0] and a hybridization of length [N],
    [ImpuritySolver.solve] returns an array whose entry at every index
    [n < N] is [1 / (i(2n+1)pi/beta - hyb[n] - U/2)]: the self-energy used is
    the constant [U/2]. *)
Theorem solve_entry (model : Model) (n : nat) :
  0 < beta model ->
  (n < length (hyb model))%nat ->
  exists green_impurity d,
    solve model = Ok green_impurity
    /\ length green_impurity = length (hyb model)
    /\ hyb model !! n = Some d
    /\ green_impurity !! n =
         Some (Cdiv C1 (Csub (Csub (mkC 0 ((2 * INR n + 1) * PI / beta model))
                                   d)
                             (mkC (U model / 2) 0))).
Proof.
  intros Hb Hn.
  assert (Hb0 : beta model <> 0) by lra.
  destruct (lookup_lt_is_Some_2 (hyb model) n Hn) as [d Hd].
  destruct (solve_Ok model Hb0) as (g & Hg & Hlen & Hent).
  exists g, d. repeat (split; [assumption |]).
  rewrite Hent by assumption.
  unfold green_entry.
  rewrite iwn_val_eq by assumption.
  rewrite (list_lookup_total_correct _ _ _ Hd). reflexivity.
Qed.

Lemma solve_entry_witness :
  0 < beta example_model
  /\ (1 < length (hyb example_model))%nat
  /\ exists green_impurity d,
      solve example_model = Ok green_impurity
      /\ length green_impurity = length (hyb example_model)
      /\ hyb example_model !! 1%nat = Some d
      /\ green_impurity !! 1%nat =
           Some (Cdiv C1
                   (Csub (Csub (mkC 0 ((2 * INR 1 + 1) * PI
                                       / beta example_model)) d)
                         (mkC (U example_model / 2) 0))).
Proof.
  assert (H1 : 0 < beta example_model) by (simpl; lra).
  assert (H2 : (1 < length (hyb example_model))%nat) by (simpl; lia).
  split; [exact H1 |]. split; [exact H2 |].
  exact (solve_entry example_model 1 H1 H2).
Defined.

(** C7.  With a vanishing hybridization of any length [N >= 1], [U = 0] and
    [beta > 0] the solver returns [1/(i w_n)] at every index; for [N = 1]
    and [beta = 10] the single entry is [-10i/pi], purely imaginary with a
    negative imaginary part. *)
Theorem solve_free (N : nat) (b hop : R) (n : nat) :
  (1 <= N)%nat ->
  0 < b ->
  (n < N)%nat ->
  (exists green_impurity,
      solve (mkModel hop b 0 (replicate N C0)) = Ok green_impurity
      /\ length green_impurity = N
      /\ green_impurity !! n =
           Some (Cdiv C1 (mkC 0 ((2 * INR n + 1) * PI / b))))
  /\ solve (mkModel hop 10 0 [C0]) = Ok [mkC 0 (- 10 / PI)]
  /\ Re (mkC 0 (- 10 / PI)) = 0
  /\ Im (mkC 0 (- 10 / PI)) < 0.
Proof.
  intros HN Hb Hn.
  assert (Hb0 : b <> 0) by lra.
  pose proof PI_RGT_0 as Hpi.
  split; [| split; [| split]].
  - destruct (solve_Ok (mkModel hop b 0 (replicate N C0)) Hb0)
      as (g & Hg & Hlen & Hent).
    simpl in Hlen, Hent. rewrite length_replicate in Hlen, Hent.
    exists g. repeat (split; [assumption |]).
    rewrite Hent by assumption.
    unfold green_entry; simpl.
    rewrite iwn_val_eq by assumption.
    rewrite lookup_total_replicate_2 by assumption.
    do 2 f_equal. apply C_eq; simpl; lra.
  - rewrite solve_fill by (simpl; lra). simpl.
    unfold green_entry; simpl.
    rewrite iwn_val_eq by lra.
    do 2 f_equal. unfold Cdiv, Csub, Cnorm2, C1, C0, RtoC; simpl.
    apply C_eq; simpl; field; lra.
  - reflexivity.
  - simpl. apply Rdiv_neg_pos; lra.
Qed.

Lemma solve_free_witness :
  (1 <= 1)%nat /\ 0 < 10 /\ (0 < 1)%nat
  /\ solve (mkModel (-1) 10 0 [C0]) = Ok [mkC 0 (- 10 / PI)].
Proof.
  assert (H1 : (1 <= 1)%nat) by lia.
  assert (H2 : 0 < 10) by lra.
  assert (H3 : (0 < 1)%nat) by lia.
  repeat (split; [assumption |]).
  exact (proj1 (proj2 (solve_free 1 10 (-1) 0 H1 H2 H3))).
Defined.

(** ** Properties of the dispersion *)

(** C8.  The dispersion is even under inversion and symmetric under exchange
    of its arguments; [eps(0,0) = -4|t|] with [|t| = 1] and [eps(pi,0) = 0].
    The method [Model.eps_k] is the same function. *)
Theorem eps_k_symmetry :
  (forall kx ky : R, eps_k kx ky = eps_k (- kx) (- ky))
  /\ (forall kx ky : R, eps_k kx ky = eps_k ky kx)
  /\ eps_k 0 0 = -4 * Rabs (-1)
  /\ eps_k 0 0 = -4
  /\ eps_k PI 0 = 0
  /\ (forall (self : Model) (kx ky : R), Model_eps_k self kx ky = eps_k kx ky).
Proof.
  unfold eps_k, Model_eps_k. repeat split; intros.
  - rewrite !cos_neg. reflexivity.
  - ring.
  - rewrite cos_0, Rabs_left by lra. ring.
  - rewrite cos_0. ring.
  - rewrite cos_PI, cos_0. ring.
Qed.

(** ** Properties of the self-consistency step *)

(** C2.  Extracting the self-energy from a hybridization and a nowhere
    vanishing impurity Green function (first loop) and then updating the
    hybridization (third loop) with the lattice Green function replaced by the
    impurity Green function itself gives the hybridization back. *)
Theorem dyson_round_trip (model : Model) (green_impurity : list C) :
  beta model <> 0 ->
  length green_impurity = length (hyb model) ->
  Forall (fun g => g <> C0) green_impurity ->
  exists self_energy,
    extract_self_energy model green_impurity = Ok self_energy
    /\ (forall n d g,
           hyb model !! n = Some d -> green_impurity !! n = Some g ->
           self_energy !! n =
             Some (Csub (Csub (mkC 0 ((2 * INR n + 1) * PI / beta model)) d)
                        (Cdiv C1 g)))
    /\ extract_new_hyb model green_impurity green_impurity self_energy
       = Ok (hyb model).
Proof.
  intros Hb Hlen _.
  eexists. split; [apply extract_self_energy_fill; [assumption | lia] |].
  set (a0 := replicate (length green_impurity) C0).
  assert (Ha0 : length a0 = length green_impurity) by apply length_replicate.
  assert (Hsig : forall n, (n < length green_impurity)%nat ->
            fill (sigma_entry model green_impurity) 0
                 (length green_impurity) a0 !! n
            = Some (sigma_entry model green_impurity n)).
  { intros n Hn. rewrite <- Ha0 at 1. apply fill_all. lia. }
  split.
  - intros n d g Hd Hg.
    rewrite Hsig by (apply lookup_lt_Some in Hg; assumption).
    unfold sigma_entry. rewrite iwn_val_eq by assumption.
    rewrite (list_lookup_total_correct _ _ _ Hd),
            (list_lookup_total_correct _ _ _ Hg).
    reflexivity.
  - rewrite extract_new_hyb_fill;
      [| assumption | lia | rewrite fill_length; lia].
    f_equal. apply fill_eq_of_lookup; [rewrite length_replicate; lia ..|].
    intros n d Hd.
    assert (Hn : (n < length green_impurity)%nat)
      by (apply lookup_lt_Some in Hd; lia).
    unfold hyb_entry.
    rewrite (list_lookup_total_correct _ _ _ (Hsig n Hn)).
    unfold sigma_entry.
    rewrite (list_lookup_total_correct _ _ _ Hd).
    apply Csub_cancel.
Qed.

Lemma dyson_round_trip_witness :
  beta example_model <> 0
  /\ length [C1; Ci] = length (hyb example_model)
  /\ Forall (fun g => g <> C0) [C1; Ci]
  /\ exists self_energy,
      extract_self_energy example_model [C1; Ci] = Ok self_energy
      /\ extract_new_hyb example_model [C1; Ci] [C1; Ci] self_energy
         = Ok (hyb example_model).
Proof.
  assert (H1 : beta example_model <> 0) by (simpl; lra).
  assert (H2 : length [C1; Ci] = length (hyb example_model)) by reflexivity.
  assert (H3 : Forall (fun g => g <> C0) [C1; Ci]).
  { repeat constructor; intros E; apply (f_equal Cnorm2) in E;
      unfold Cnorm2 in E; simpl in E; lra. }
  repeat (split; [assumption |]).
  destruct (dyson_round_trip example_model [C1; Ci] H1 H2 H3)
    as (s & Hs & _ & Hh).
  exists s. split; assumption.
Defined.

(** C3.  When the impurity Green function is the one the solver returned for
    the same model, and no denominator vanishes, the self-energy re-derived by
    the first loop of the self-consistency step is the Hartree value [U/2] at
    every index. *)
Theorem hartree_self_energy_rederived (model : Model) :
  0 < beta model ->
  (forall n d,
      hyb model !! n = Some d ->
      Csub (Csub (mkC 0 ((2 * INR n + 1) * PI / beta model)) d)
           (mkC (U model / 2) 0) <> C0) ->
  exists green_impurity,
    solve model = Ok green_impurity
    /\ extract_self_energy model green_impurity
       = Ok (replicate (length (hyb model)) (mkC (U model / 2) 0)).
Proof.
  intros Hb Hden.
  assert (Hb0 : beta model <> 0) by lra.
  destruct (solve_Ok model Hb0) as (g & Hg & Hlen & Hent).
  exists g. split; [assumption |].
  rewrite extract_self_energy_fill by (assumption || lia).
  f_equal. apply fill_eq_of_lookup.
  - rewrite length_replicate. reflexivity.
  - rewrite !length_replicate. lia.
  - intros n x Hx. apply lookup_replicate in Hx as [-> Hn].
    destruct (lookup_lt_is_Some_2 (hyb model) n Hn) as [d Hd].
    unfold sigma_entry.
    rewrite (list_lookup_total_correct _ _ _ (Hent n Hn)).
    unfold green_entry.
    rewrite (list_lookup_total_correct _ _ _ Hd).
    rewrite iwn_val_eq by assumption.
    rewrite Cdiv_1_involutive by (apply (Hden n d Hd)).
    apply C_eq; simpl; ring.
Qed.

Lemma hartree_self_energy_rederived_witness :
  0 < beta example_model
  /\ exists green_impurity,
      solve example_model = Ok green_impurity
      /\ extract_self_energy example_model green_impurity
         = Ok [mkC (4 / 2) 0; mkC (4 / 2) 0].
Proof.
  assert (H1 : 0 < beta example_model) by (simpl; lra).
  split; [assumption |].
  apply (hartree_self_energy_rederived example_model H1).
  intros n d Hd E.
  destruct n as [|[|n]]; simpl in Hd; try discriminate;
    injection Hd as <-; apply (f_equal Re) in E; simpl in E; lra.
Defined.

(** ** The driver loop *)

Lemma iteration_Ok dblquad (hop b u : R) (h : list C) :
  b <> 0 ->
  exists g h',
    solve (mkModel hop b u h) = Ok g
    /\ run_selfconsistency dblquad (mkModel hop b u h) g = Ok h'
    /\ iteration dblquad hop b u h = Ok h'
    /\ length g = length h
    /\ length h' = length h.
Proof.
  intros Hb. unfold iteration, pass_with.
  destruct (solve_Ok (mkModel hop b u h) Hb) as (g & Hg & Hlen & _).
  simpl in Hlen.
  destruct (run_selfconsistency_Ok dblquad (mkModel hop b u h) g Hb)
    as (h' & Hh' & Hlen'); [simpl; lia |].
  exists g, h'. rewrite Hg. simpl.
  repeat (split; [reflexivity || assumption || lia |]). lia.
Qed.

Lemma pass_Ok dblquad (hop b u : R) (h : list C) :
  b <> 0 -> iteration dblquad hop b u h = Ok (pass dblquad hop b u h).
Proof.
  intros Hb. unfold pass.
  destruct (iteration_Ok dblquad hop b u h Hb) as (g & h' & _ & _ & -> & _).
  reflexivity.
Qed.

Lemma pass_length dblquad (hop b u : R) (h : list C) :
  b <> 0 -> length (pass dblquad hop b u h) = length h.
Proof.
  intros Hb. unfold pass.
  destruct (iteration_Ok dblquad hop b u h Hb)
    as (g & h' & _ & _ & -> & _ & Hlen).
  assumption.
Qed.

Lemma iter_pass_length dblquad (hop b u : R) (k : nat) (h : list C) :
  b <> 0 -> length (Nat.iter k (pass dblquad hop b u) h) = length h.
Proof.
  intros Hb. induction k as [|k IH]; simpl.
  - reflexivity.
  - rewrite pass_length by assumption. assumption.
Qed.

(** [main_with] is the driver at the solver and the self-consistency step:
    its loop runs [iteration]. *)
Lemma main_with_loop dblquad (n_freq : nat) (hop b u : R) (iter_max : nat) :
  main_with dblquad n_freq hop b u iter_max
  = bind (for_from 0 iter_max
                   (fun ii hyb => iteration dblquad hop b u hyb)
                   (replicate n_freq C0))
         (fun hyb =>
            bind (frequencies_from b 0 n_freq)
                 (fun frequencies => Ok (frequencies, hyb))).
Proof. reflexivity. Qed.

(** The loop of [main] runs its body once per index, whatever the index. *)
Lemma driver_loop dblquad (hop b u : R) :
  b <> 0 ->
  forall count start h,
    for_from start count (fun ii hyb => iteration dblquad hop b u hyb) h
    = Ok (Nat.iter count (pass dblquad hop b u) h).
Proof.
  intros Hb. induction count as [|count IH]; intros start h.
  - reflexivity.
  - cbn [for_from]. rewrite pass_Ok by assumption. cbn [bind].
    rewrite IH. rewrite Nat.iter_succ_r. reflexivity.
Qed.

Lemma frequencies_from_Ok (b : R) :
  b <> 0 ->
  forall count start,
    frequencies_from b start count
    = Ok ((fun n => (2 * INR n + 1) * PI / b) <$> seq start count).
Proof.
  intros Hb. induction count as [|count IH]; intros start.
  - reflexivity.
  - cbn [frequencies_from]. unfold float_div.
    destruct (Req_dec_T b 0) as [E|_]; [contradiction |].
    cbn [bind]. rewrite IH. reflexivity.
Qed.

(** C6.  The length of the hybridization is invariant: with a hybridization
    of length [N], the solver returns an array of length [N], the
    self-consistency step applied to an impurity Green function of length [N]
    returns a hybridization of length [N], and so does any number of passes
    of the driver loop. *)
Theorem length_invariant dblquad (model : Model) (k : nat) :
  beta model <> 0 ->
  (exists green_impurity,
      solve model = Ok green_impurity
      /\ length green_impurity = length (hyb model))
  /\ (forall green_impurity,
         length green_impurity = length (hyb model) ->
         exists hyb_new,
           run_selfconsistency dblquad model green_impurity = Ok hyb_new
           /\ length hyb_new = length (hyb model))
  /\ (exists hyb_k,
         for_range k
           (fun ii hyb => iteration dblquad (t model) (beta model) (U model) hyb)
           (hyb model) = Ok hyb_k
         /\ length hyb_k = length (hyb model)).
Proof.
  intros Hb. split; [| split].
  - destruct (solve_Ok model Hb) as (g & Hg & Hlen & _).
    exists g. split; assumption.
  - intros g Hlen.
    destruct (run_selfconsistency_Ok dblquad model g Hb) as (h & Hh & Hlen');
      [lia |].
    exists h. split; [assumption | lia].
  - eexists. split; [apply driver_loop; assumption |].
    apply iter_pass_length. assumption.
Qed.

Lemma length_invariant_witness :
  beta example_model <> 0
  /\ exists hyb_k,
      for_range 3
        (fun ii hyb => iteration midpoint_rule (-1) 10 4 hyb)
        [C0; C0] = Ok hyb_k
      /\ length hyb_k = 2%nat.
Proof.
  assert (H1 : beta example_model <> 0) by (simpl; lra).
  split; [assumption |].
  exact (proj2 (proj2 (length_invariant midpoint_rule example_model 3 H1))).
Defined.

Lemma for_from_total {St : Type} (body : nat -> St -> result St)
      (step : St -> St) :
  (forall n st, body n st = Ok (step st)) ->
  forall count start st,
    for_from start count body st = Ok (Nat.iter count step st).
Proof.
  intros Hbody. induction count as [|count IH]; intros start st.
  - reflexivity.
  - cbn [for_from]. rewrite Hbody. cbn [bind].
    rewrite IH. rewrite Nat.iter_succ_r. reflexivity.
Qed.

Lemma iter_increment (n_freq k : nat) :
  Nat.iter k (fmap (Cadd C1)) (replicate n_freq C0)
  = replicate n_freq (RtoC (INR k)).
Proof.
  induction k as [|k IH].
  - reflexivity.
  - cbn [Nat.iter nat_rect]. fold (Nat.iter k (fmap (M := list) (Cadd C1))
                                            (replicate n_freq C0)).
    rewrite IH, fmap_replicate. f_equal.
    rewrite S_INR. apply C_eq; simpl; lra.
Qed.

(** C5.  The driver starts from the zero hybridization of length [n_freq],
    runs solver and self-consistency step exactly [iter_max] times, each pass
    on the hybridization the previous one produced, never stops early, and
    returns the frequencies [(2n+1)pi/beta] for [n < n_freq] together with the
    hybridization of the last pass, both of length [n_freq].  The notebook's
    [main] is the instance with 200 frequencies and 20 passes.

    The number of passes is stated on the loop itself: [main_with] is the
    driver [driver_with] at [solve] and [run_selfconsistency]; for every
    solver and step whose pass is a total function that driver returns the
    [iter_max]-fold iterate of the pass, and with a pass that adds one to
    every entry it returns the array of value [iter_max]. *)
Theorem main_with_spec dblquad (n_freq : nat) (hop b u : R) (iter_max : nat) :
  0 < b ->
  (exists (delta : nat -> list C) (frequencies : list R),
      delta 0%nat = replicate n_freq C0
      /\ (forall k, (k < iter_max)%nat ->
                    exists green_impurity,
                      solve (mkModel hop b u (delta k)) = Ok green_impurity
                      /\ run_selfconsistency dblquad (mkModel hop b u (delta k))
                                             green_impurity
                         = Ok (delta (S k)))
      /\ (forall k, length (delta k) = n_freq)
      /\ length frequencies = n_freq
      /\ (forall n, (n < n_freq)%nat ->
                    frequencies !! n = Some ((2 * INR n + 1) * PI / b))
      /\ main_with dblquad n_freq hop b u iter_max
         = Ok (frequencies, delta iter_max)
      /\ main dblquad = main_with dblquad 200 (-1) 10 4 20)
  /\ main_with dblquad n_freq hop b u iter_max
     = driver_with solve (run_selfconsistency dblquad) n_freq hop b u iter_max
  /\ (forall (solver : Model -> result (list C))
             (selfcons : Model -> list C -> result (list C))
             (step : list C -> list C),
         (forall h, pass_with solver selfcons hop b u h = Ok (step h)) ->
         driver_with solver selfcons n_freq hop b u iter_max
         = Ok ((fun n => (2 * INR n + 1) * PI / b) <$> seq 0 n_freq,
               Nat.iter iter_max step (replicate n_freq C0)))
  /\ driver_with (fun model => Ok (hyb model))
                 (fun model green_impurity => Ok (Cadd C1 <$> green_impurity))
                 n_freq hop b u iter_max
     = Ok ((fun n => (2 * INR n + 1) * PI / b) <$> seq 0 n_freq,
           replicate n_freq (RtoC (INR iter_max))).
Proof.
  intros Hb. assert (Hb0 : b <> 0) by lra.
  assert (Hgen : forall (solver : Model -> result (list C))
                        (selfcons : Model -> list C -> result (list C))
                        (step : list C -> list C),
             (forall h, pass_with solver selfcons hop b u h = Ok (step h)) ->
             driver_with solver selfcons n_freq hop b u iter_max
             = Ok ((fun n => (2 * INR n + 1) * PI / b) <$> seq 0 n_freq,
                   Nat.iter iter_max step (replicate n_freq C0))).
  { intros solver selfcons step Hstep. unfold driver_with, for_range.
    rewrite (for_from_total _ step) by (intros n st; apply Hstep).
    cbn [bind]. rewrite frequencies_from_Ok by assumption. reflexivity. }
  split; [| split; [reflexivity | split; [exact Hgen |]]].
  - exists (fun k => Nat.iter k (pass dblquad hop b u) (replicate n_freq C0)).
    exists ((fun n => (2 * INR n + 1) * PI / b) <$> seq 0 n_freq).
    split; [reflexivity |].
    split.
    { intros k _. cbn [Nat.iter nat_rect].
      set (h := Nat.iter k _ _).
      destruct (iteration_Ok dblquad hop b u h Hb0)
        as (g & h' & Hg & Hh' & Hit & _).
      exists g. split; [assumption |].
      rewrite pass_Ok in Hit by assumption. injection Hit as <-.
      assumption. }
    split.
    { intros k. rewrite iter_pass_length by assumption.
      apply length_replicate. }
    split; [rewrite length_fmap; apply length_seq |].
    split.
    { intros n Hn. rewrite list_lookup_fmap, lookup_seq_lt by assumption.
      reflexivity. }
    split; [| reflexivity].
    rewrite !main_with_loop.
    rewrite driver_loop by assumption. cbn [bind].
    rewrite frequencies_from_Ok by assumption. reflexivity.
  - rewrite (Hgen _ _ (fmap (Cadd C1))) by (intros h; reflexivity).
    rewrite iter_increment. reflexivity.
Qed.

Lemma main_with_spec_witness :
  0 < 10
  /\ (exists (delta : nat -> list C) (frequencies : list R),
        delta 0%nat = replicate 200 C0
        /\ length frequencies = 200%nat
        /\ main midpoint_rule = Ok (frequencies, delta 20%nat))
  /\ main_with midpoint_rule 200 (-1) 10 4 20
     = driver_with solve (run_selfconsistency midpoint_rule) 200 (-1) 10 4 20
  /\ driver_with (fun model => Ok (hyb model))
                 (fun model green_impurity => Ok (Cadd C1 <$> green_impurity))
                 200 (-1) 10 4 20
     = Ok ((fun n => (2 * INR n + 1) * PI / 10) <$> seq 0 200,
           replicate 200 (RtoC (INR 20))).
Proof.
  assert (H1 : 0 < 10) by lra.
  split; [assumption |].
  destruct (main_with_spec midpoint_rule 200 (-1) 10 4 20 H1)
    as ((delta & fr & H0 & _ & _ & Hfr & _ & Hmain & Hm) & Hd & _ & Hc).
  split; [| split; assumption].
  exists delta, fr. rewrite Hm. repeat split; assumption.
Defined.

(** C10.  The hopping [t] stored in the model is never read: the dispersion
    has the coefficient [-2] built in, and the solver, the self-consistency
    step and the driver return the same result for any two values of [t]. *)
Theorem hopping_never_read dblquad (n_freq : nat) (t1 t2 b u : R)
        (iter_max : nat) (h g : list C) :
  (forall kx ky,
      Model_eps_k (mkModel t1 b u h) kx ky = -2 * (cos kx + cos ky))
  /\ solve (mkModel t1 b u h) = solve (mkModel t2 b u h)
  /\ run_selfconsistency dblquad (mkModel t1 b u h) g
     = run_selfconsistency dblquad (mkModel t2 b u h) g
  /\ main_with dblquad n_freq t1 b u iter_max
     = main_with dblquad n_freq t2 b u iter_max.
Proof.
  repeat split; reflexivity.
Qed.

(** ** Exact integrals of the dispersion *)













(** ** The first moment of the hybridization *)





(** ** Exceptions of the solver *)

(** With [beta = 0] the division of Python scalars in the first pass of the
    loop raises. *)
Remark solve_beta_zero (hop u : R) (d : C) (h : list C) :
  solve (mkModel hop 0 u (d :: h)) = Raise ZeroDivisionError.
Proof.
  unfold solve, for_range. simpl. rewrite iwn_of_zero. reflexivity.
Qed.


(** ** Exceptions of the solver and of the self-consistency step *)

(** A loop that fills the array up to an index at which the body raises,
    raises. *)
Lemma for_from_raise {A : Type} (g : nat -> A)
      (body : nat -> list A -> result (list A)) (len : nat) (e : exn) (k : nat) :
  forall count start a,
    (forall n a', (start <= n < k)%nat -> length a' = len ->
                  body n a' = Ok (<[n := g n]> a')) ->
    (forall a', length a' = len -> body k a' = Raise e) ->
    (start <= k < start + count)%nat ->
    length a = len ->
    for_from start count body a = Raise e.
Proof.
  induction count as [|count IH]; intros start a Hok Hraise Hk Hlen.
  - lia.
  - cbn [for_from].
    destruct (decide (start = k)) as [->|Hne].
    + rewrite Hraise by assumption. reflexivity.
    + rewrite Hok by (assumption || lia). cbn [bind].
      apply IH.
      * intros n a' Hn Ha'. apply Hok; [lia | assumption].
      * assumption.
      * lia.
      * rewrite length_insert. assumption.
Qed.

Lemma solve_empty (hop b u : R) : solve (mkModel hop b u []) = Ok [].
Proof. reflexivity. Qed.

(** X1.  [ImpuritySolver.solve] raises exactly when [beta] is zero and the
    hybridization is not empty, and what it raises then is
    [ZeroDivisionError]; it never raises [IndexError].  On an empty
    hybridization it returns the empty array, for every [beta], and whenever
    it returns, the array has the length of the hybridization. *)
Theorem solve_raises_iff (model : Model) :
  (solve model = Raise ZeroDivisionError
   <-> beta model = 0 /\ hyb model <> [])
  /\ solve model <> Raise IndexError
  /\ (forall hop b u : R, solve (mkModel hop b u []) = Ok [])
  /\ (forall green_impurity,
         solve model = Ok green_impurity ->
         length green_impurity = length (hyb model)).
Proof.
  split; [| split; [| split; [intros hop b u; apply solve_empty |]]].
  - destruct model as [hop b u h].
    destruct (Req_dec_T b 0) as [->|Hb].
    + destruct h as [|d h].
      * rewrite solve_empty. simpl. split.
        -- discriminate.
        -- intros [_ Hne]. congruence.
      * rewrite solve_beta_zero. simpl. split.
        -- intros _. split; [reflexivity | discriminate].
        -- reflexivity.
    + destruct (solve_Ok (mkModel hop b u h) Hb) as (g & -> & _).
      simpl. split.
      * discriminate.
      * intros [E _]. contradiction.
  - destruct model as [hop b u h].
    destruct (Req_dec_T b 0) as [->|Hb].
    + destruct h as [|d h].
      * rewrite solve_empty. discriminate.
      * rewrite solve_beta_zero. discriminate.
    + destruct (solve_Ok (mkModel hop b u h) Hb) as (g & -> & _).
      discriminate.
  - intros g Hg. destruct model as [hop b u h].
    destruct (Req_dec_T b 0) as [->|Hb].
    + destruct h as [|d h].
      * rewrite solve_empty in Hg. injection Hg as <-. reflexivity.
      * rewrite solve_beta_zero in Hg. discriminate.
    + apply (solve_length _ _ Hg). assumption.
Qed.

(** X2.  When the impurity Green function is longer than the hybridization
    of the model, the self-consistency step raises [IndexError]: its first
    loop runs over the Green function and reads the hybridization at the
    same index. *)
Theorem run_selfconsistency_index_error dblquad (model : Model)
        (green_impurity : list C) :
  beta model <> 0 ->
  (length (hyb model) < length green_impurity)%nat ->
  run_selfconsistency dblquad model green_impurity = Raise IndexError.
Proof.
  intros Hb Hlt. unfold run_selfconsistency.
  assert (E : extract_self_energy model green_impurity = Raise IndexError).
  { unfold extract_self_energy, for_range.
    apply for_from_raise
      with (g := sigma_entry model green_impurity)
           (len := length green_impurity) (k := length (hyb model)).
    - intros n a' Hn Ha'.
      rewrite iwn_of_Ok by assumption. simpl.
      destruct (lookup_lt_is_Some_2 (hyb model) n ltac:(lia)) as [d Hd].
      destruct (lookup_lt_is_Some_2 green_impurity n ltac:(lia)) as [g Hg].
      rewrite (getitem_Ok _ _ _ Hd). simpl.
      rewrite (getitem_Ok _ _ _ Hg). simpl.
      rewrite setitem_Ok by lia.
      unfold sigma_entry.
      rewrite (list_lookup_total_correct _ _ _ Hd),
              (list_lookup_total_correct _ _ _ Hg).
      reflexivity.
    - intros a' _. rewrite iwn_of_Ok by assumption. simpl.
      unfold getitem. rewrite lookup_ge_None_2 by lia. reflexivity.
    - lia.
    - apply length_replicate. }
  rewrite E. reflexivity.
Qed.

Lemma run_selfconsistency_index_error_witness :
  beta example_model <> 0
  /\ (length (hyb example_model) < length [C1; C1; C1])%nat
  /\ run_selfconsistency midpoint_rule example_model [C1; C1; C1]
     = Raise IndexError.
Proof.
  assert (H1 : beta example_model <> 0) by (simpl; lra).
  assert (H2 : (length (hyb example_model) < length [C1; C1; C1])%nat)
    by (simpl; lia).
  repeat (split; [assumption |]).
  exact (run_selfconsistency_index_error midpoint_rule example_model
                                         [C1; C1; C1] H1 H2).
Defined.

(** X3.  With [beta = 0] the self-consistency step raises
    [ZeroDivisionError] on any non-empty impurity Green function, also on one
    longer than the hybridization: the frequency is evaluated before the
    arrays are read.  On the empty Green function it returns the empty
    hybridization, whatever the model. *)
Theorem run_selfconsistency_degenerate dblquad (hop u : R) (h : list C)
        (g : C) (green_impurity : list C) (model : Model) :
  run_selfconsistency dblquad (mkModel hop 0 u h) (g :: green_impurity)
  = Raise ZeroDivisionError
  /\ run_selfconsistency dblquad model [] = Ok [].
Proof.
  split; [| reflexivity].
  unfold run_selfconsistency, extract_self_energy, for_range.
  cbn [length for_from beta]. rewrite iwn_of_zero. reflexivity.
Qed.

(** ** The self-consistency step in closed form *)

Lemma lattice_entry_parts dblquad (model : Model) (self_energy : list C)
      (n : nat) :
  lattice_entry dblquad model self_energy n
  = mkC (dblquad (fun kx ky =>
                    green_lattice_scalar_real model kx ky self_energy n)
                 (- PI) PI (fun _ => - PI) (fun _ => PI) / (2 * PI) ^ 2)
        (dblquad (fun kx ky =>
                    green_lattice_scalar_imag model kx ky self_energy n)
                 (- PI) PI (fun _ => - PI) (fun _ => PI) / (2 * PI) ^ 2).
Proof.
  pose proof PI_RGT_0 as Hpi.
  unfold lattice_entry, Cdiv, Cadd, Cmul, Ci, RtoC, Cnorm2; simpl.
  apply C_eq; simpl; field; lra.
Qed.

Lemma lattice_green_lookup dblquad (model : Model)
      (green_impurity self_energy : list C) (n : nat) :
  (n < length green_impurity)%nat ->
  fill (lattice_entry dblquad model self_energy) 0 (length green_impurity)
       (replicate (length green_impurity) C0) !! n
  = Some (lattice_entry dblquad model self_energy n).
Proof.
  intros Hn.
  rewrite <- (length_replicate (length green_impurity) C0) at 1.
  apply fill_all. rewrite length_replicate. assumption.
Qed.

(** X4.  For [beta <> 0] and a self-energy at least as long as the impurity
    Green function, which is how [run_selfconsistency] reaches it, the second
    loop of the self-consistency step returns an array of the length of the
    impurity Green function.  It reads that Green function only for its
    length, and leaves at every index the complex number whose real and
    imaginary parts are the two integrals divided by [(2 pi)^2]. *)
Theorem lattice_green_entries dblquad (model : Model)
        (green_impurity self_energy : list C) (n : nat) :
  beta model <> 0 ->
  (length green_impurity <= length self_energy)%nat ->
  (n < length green_impurity)%nat ->
  exists green_impurity_new,
    lattice_green dblquad model green_impurity self_energy
    = Ok green_impurity_new
    /\ length green_impurity_new = length green_impurity
    /\ green_impurity_new !! n
       = Some (mkC (dblquad (fun kx ky =>
                               green_lattice_scalar_real model kx ky
                                                         self_energy n)
                            (- PI) PI (fun _ => - PI) (fun _ => PI)
                    / (2 * PI) ^ 2)
                   (dblquad (fun kx ky =>
                               green_lattice_scalar_imag model kx ky
                                                         self_energy n)
                            (- PI) PI (fun _ => - PI) (fun _ => PI)
                    / (2 * PI) ^ 2))
    /\ (forall other : list C,
           length other = length green_impurity ->
           lattice_green dblquad model other self_energy
           = Ok green_impurity_new).
Proof.
  intros _ _ Hn. eexists.
  split; [apply lattice_green_fill |].
  split; [rewrite fill_length; apply length_replicate |].
  split.
  - rewrite lattice_green_lookup by assumption.
    rewrite lattice_entry_parts. reflexivity.
  - intros other Hlen. rewrite lattice_green_fill, Hlen. reflexivity.
Qed.

Lemma lattice_green_entries_witness :
  beta example_model <> 0
  /\ (length [C1; C1] <= length [C0; C0])%nat
  /\ (1 < length [C1; C1])%nat
  /\ exists green_impurity_new,
      lattice_green midpoint_rule example_model [C1; C1] [C0; C0]
      = Ok green_impurity_new
      /\ length green_impurity_new = 2%nat.
Proof.
  assert (H1 : beta example_model <> 0) by (simpl; lra).
  assert (H2 : (length [C1; C1] <= length [C0; C0])%nat) by (simpl; lia).
  assert (H3 : (1 < length [C1; C1])%nat) by (simpl; lia).
  repeat (split; [assumption |]).
  destruct (lattice_green_entries midpoint_rule example_model [C1; C1]
                                  [C0; C0] 1 H1 H2 H3) as (g & Hg & Hlen & _).
  exists g. split; assumption.
Defined.

(** X5.  On an impurity Green function no longer than the hybridization the
    self-consistency step returns a hybridization of the length of the Green
    function, and its entry at [n] is the old entry shifted by the difference
    of the inverse Green functions, [hyb[n] + 1/G_imp[n] - 1/G_latt[n]]: the
    frequency cancels. *)
Theorem run_selfconsistency_shift dblquad (model : Model)
        (green_impurity : list C) :
  beta model <> 0 ->
  (length green_impurity <= length (hyb model))%nat ->
  exists self_energy green_impurity_new hyb_new,
    extract_self_energy model green_impurity = Ok self_energy
    /\ lattice_green dblquad model green_impurity self_energy
       = Ok green_impurity_new
    /\ run_selfconsistency dblquad model green_impurity = Ok hyb_new
    /\ length hyb_new = length green_impurity
    /\ forall n d g l,
        hyb model !! n = Some d ->
        green_impurity !! n = Some g ->
        green_impurity_new !! n = Some l ->
        hyb_new !! n = Some (Cadd d (Csub (Cdiv C1 g) (Cdiv C1 l))).
Proof.
  intros Hb Hle.
  pose proof (extract_self_energy_fill model green_impurity Hb Hle) as HS.
  set (sigma := fill _ _ _ _) in HS.
  pose proof (lattice_green_fill dblquad model green_impurity sigma) as HL.
  set (latt := fill _ _ _ _) in HL.
  assert (Hsl : length sigma = length green_impurity)
    by (unfold sigma; rewrite fill_length; apply length_replicate).
  assert (Hll : length latt = length green_impurity)
    by (unfold latt; rewrite fill_length; apply length_replicate).
  pose proof (extract_new_hyb_fill model green_impurity latt sigma Hb
                ltac:(lia) ltac:(lia)) as HN.
  exists sigma, latt. eexists.
  split; [exact HS |]. split; [exact HL |].
  split; [unfold run_selfconsistency; rewrite HS; cbn [bind];
          rewrite HL; cbn [bind]; exact HN |].
  split; [rewrite fill_length; apply length_replicate |].
  intros n d g l Hd Hg Hl.
  assert (Hn : (n < length green_impurity)%nat)
    by (apply lookup_lt_Some in Hg; assumption).
  assert (Hsig : sigma !! n = Some (sigma_entry model green_impurity n)).
  { unfold sigma.
    rewrite <- (length_replicate (length green_impurity) C0) at 1.
    apply fill_all. rewrite length_replicate. assumption. }
  rewrite <- (length_replicate (length green_impurity) C0) at 1.
  rewrite fill_all by (rewrite length_replicate; assumption).
  f_equal. unfold hyb_entry.
  rewrite (list_lookup_total_correct _ _ _ Hl),
          (list_lookup_total_correct _ _ _ Hsig).
  unfold sigma_entry.
  rewrite (list_lookup_total_correct _ _ _ Hd),
          (list_lookup_total_correct _ _ _ Hg).
  apply C_eq; simpl; ring.
Qed.

Lemma run_selfconsistency_shift_witness :
  beta example_model <> 0
  /\ (length [Ci] <= length (hyb example_model))%nat
  /\ exists hyb_new,
      run_selfconsistency midpoint_rule example_model [Ci] = Ok hyb_new
      /\ length hyb_new = 1%nat.
Proof.
  assert (H1 : beta example_model <> 0) by (simpl; lra).
  assert (H2 : (length [Ci] <= length (hyb example_model))%nat)
    by (simpl; lia).
  repeat (split; [assumption |]).
  destruct (run_selfconsistency_shift midpoint_rule example_model [Ci] H1 H2)
    as (s & l & h & _ & _ & Hh & Hlen & _).
  exists h. split; assumption.
Defined.

(** ** Signs and bounds of the Green functions *)

Lemma omega_pos (b : R) (n : nat) : 0 < b -> 0 < (2 * INR n + 1) * PI / b.
Proof.
  intros Hb. pose proof PI_RGT_0 as Hpi. pose proof (pos_INR n) as Hn.
  apply Rdiv_lt_0_compat; [| assumption].
  apply Rmult_lt_0_compat; lra.
Qed.

Lemma div_le_inv (x d w : R) : 0 < d -> 0 < w -> x * w <= d -> x / d <= 1 / w.
Proof.
  intros Hd Hw Hx.
  assert (Hdw : 0 < d * w) by (apply Rmult_lt_0_compat; assumption).
  replace (x / d) with (x * w * / (d * w)) by (field; lra).
  replace (1 / w) with (d * / (d * w)) by (field; lra).
  apply Rmult_le_compat_r; [| assumption].
  left. apply Rinv_0_lt_compat. assumption.
Qed.

(** The inverse of a complex number in the upper half plane, at height at
    least [w], lies in the lower half plane and in a disc of radius [1/w]. *)
Lemma Cdiv_1_upper (z : C) (w : R) :
  0 < w -> w <= Im z ->
  - (1 / w) <= Im (Cdiv C1 z) < 0
  /\ Rabs (Re (Cdiv C1 z)) <= 1 / (2 * w).
Proof.
  intros Hw Hz.
  destruct z as [a b]. simpl in Hz.
  unfold Cdiv, C1, RtoC, Cnorm2; simpl.
  assert (Hd : 0 < a * a + b * b) by nra.
  split; [split |].
  - replace ((0 * a - 1 * b) / (a * a + b * b))
      with (- (b / (a * a + b * b))) by (field; lra).
    apply Ropp_le_contravar. apply div_le_inv; [assumption .. | nra].
  - replace ((0 * a - 1 * b) / (a * a + b * b))
      with (- (b / (a * a + b * b))) by (field; lra).
    apply Ropp_lt_gt_0_contravar. apply Rdiv_lt_0_compat; lra.
  - replace ((1 * a + 0 * b) / (a * a + b * b))
      with (a / (a * a + b * b)) by (field; lra).
    apply Rabs_le. split.
    + replace (a / (a * a + b * b))
        with (- ((- a) / (a * a + b * b))) by (field; lra).
      apply Ropp_le_contravar. apply div_le_inv; [assumption | lra |].
      pose proof (Rle_0_sqr (a + b)) as Hsq. unfold Rsqr in Hsq.
      destruct (Rle_lt_dec 0 a) as [Ha|Ha]; [nra |].
      assert (Hp : 0 <= (- a) * (b - w)) by nra. nra.
    + apply div_le_inv; [assumption | lra |].
      pose proof (Rle_0_sqr (a - b)) as Hsq. unfold Rsqr in Hsq.
      destruct (Rle_lt_dec 0 a) as [Ha|Ha]; [| nra].
      assert (Hp : 0 <= a * (b - w)) by nra. nra.
Qed.

Lemma lattice_integrand_upper (model : Model) (kx ky : R)
      (self_energy : list C) (n : nat) (s : C) :
  0 < beta model ->
  self_energy !! n = Some s ->
  Im s <= 0 ->
  (2 * INR n + 1) * PI / beta model
  <= Im (Csub (Csub (iwn_val (beta model) n)
                    (RtoC (Model_eps_k model kx ky)))
              (self_energy !!! n)).
Proof.
  intros Hb Hs Hi.
  rewrite (list_lookup_total_correct _ _ _ Hs).
  rewrite iwn_val_eq by lra. simpl. lra.
Qed.

(** X6.  For [beta > 0] and a self-energy entry in the closed lower half
    plane, the two integrands of the lattice Green function are bounded
    uniformly in the momentum: the imaginary part lies in [[-1/w_n, 0)] and
    the real part in [[-1/(2 w_n), 1/(2 w_n)]], with
    [w_n = (2n+1) pi / beta]. *)
Theorem lattice_integrand_bounds (model : Model) (kx ky : R)
        (self_energy : list C) (n : nat) (s : C) :
  0 < beta model ->
  self_energy !! n = Some s ->
  Im s <= 0 ->
  - (1 / ((2 * INR n + 1) * PI / beta model))
  <= green_lattice_scalar_imag model kx ky self_energy n < 0
  /\ Rabs (green_lattice_scalar_real model kx ky self_energy n)
     <= 1 / (2 * ((2 * INR n + 1) * PI / beta model)).
Proof.
  intros Hb Hs Hi.
  unfold green_lattice_scalar_imag, green_lattice_scalar_real.
  apply Cdiv_1_upper; [apply omega_pos; assumption |].
  apply (lattice_integrand_upper model kx ky self_energy n s); assumption.
Qed.

Lemma lattice_integrand_bounds_witness :
  0 < beta example_model
  /\ [C0; C0] !! 1%nat = Some C0
  /\ Im C0 <= 0
  /\ green_lattice_scalar_imag example_model 0 0 [C0; C0] 1 < 0.
Proof.
  assert (H1 : 0 < beta example_model) by (simpl; lra).
  assert (H2 : [C0; C0] !! 1%nat = Some C0) by reflexivity.
  assert (H3 : Im C0 <= 0) by (simpl; lra).
  repeat (split; [assumption |]).
  exact (proj2 (proj1 (lattice_integrand_bounds example_model 0 0 [C0; C0]
                                                1 C0 H1 H2 H3))).
Defined.

Lemma lattice_entry_causal dblquad (model : Model) (self_energy : list C)
      (n : nat) (s : C) :
  0 < beta model ->
  negative_preserving dblquad ->
  self_energy !! n = Some s ->
  Im s <= 0 ->
  Im (lattice_entry dblquad model self_energy n) < 0.
Proof.
  intros Hb Hneg Hs Hi. rewrite lattice_entry_parts. simpl.
  pose proof PI_RGT_0 as Hpi.
  apply Rdiv_neg_pos; [| nra].
  apply Hneg. intros y x.
  unfold green_lattice_scalar_imag.
  apply (Cdiv_1_upper _ ((2 * INR n + 1) * PI / beta model));
    [apply omega_pos; assumption |].
  apply (lattice_integrand_upper model y x self_energy n s); assumption.
Qed.

Lemma midpoint_rule_negative : negative_preserving midpoint_rule.
Proof.
  intros func Hf. unfold midpoint_rule.
  pose proof PI_RGT_0 as Hpi.
  set (v := func _ _). assert (Hv : v < 0) by apply Hf.
  assert (Hw : 0 < (PI - - PI) * (PI - - PI))
    by (apply Rmult_lt_0_compat; lra).
  cbv zeta. fold v. nra.
Qed.



(** X8.  With [beta > 0], wherever the hybridization lies in the closed
    lower half plane the impurity Green function the solver returns has a
    negative imaginary part, at least [-1/w_n], and a real part of modulus at
    most [1/(2 w_n)], whatever [U]. *)
Theorem solve_causal (model : Model) (n : nat) (d : C) :
  0 < beta model ->
  hyb model !! n = Some d ->
  Im d <= 0 ->
  exists green_impurity g,
    solve model = Ok green_impurity
    /\ green_impurity !! n = Some g
    /\ - (1 / ((2 * INR n + 1) * PI / beta model)) <= Im g < 0
    /\ Rabs (Re g) <= 1 / (2 * ((2 * INR n + 1) * PI / beta model)).
Proof.
  intros Hb Hd Hi.
  assert (Hb0 : beta model <> 0) by lra.
  destruct (solve_Ok model Hb0) as (g & Hg & _ & Hent).
  exists g, (green_entry model n).
  split; [assumption |].
  split; [apply Hent; apply lookup_lt_Some in Hd; assumption |].
  unfold green_entry.
  rewrite (list_lookup_total_correct _ _ _ Hd).
  rewrite iwn_val_eq by assumption.
  apply Cdiv_1_upper; [apply omega_pos; assumption |].
  simpl. lra.
Qed.

Lemma solve_causal_witness :
  0 < beta example_model
  /\ hyb example_model !! 0%nat = Some C0
  /\ Im C0 <= 0
  /\ exists green_impurity g,
      solve example_model = Ok green_impurity
      /\ green_impurity !! 0%nat = Some g
      /\ Im g < 0.
Proof.
  assert (H1 : 0 < beta example_model) by (simpl; lra).
  assert (H2 : hyb example_model !! 0%nat = Some C0) by reflexivity.
  assert (H3 : Im C0 <= 0) by (simpl; lra).
  repeat (split; [assumption |]).
  destruct (solve_causal example_model 0 C0 H1 H2 H3)
    as (gi & g & Hs & Hg & [_ Him] & _).
  exists gi, g. repeat split; assumption.
Defined.

(** ** One pass of the driver reaches the fixed point *)

Lemma Cdiv_1_nonzero (z : C) : z <> C0 -> Cdiv C1 z <> C0.
Proof.
  intros Hz E. apply Hz.
  rewrite <- (Cdiv_1_involutive z Hz), E.
  unfold Cdiv, C1, C0, RtoC, Cnorm2; simpl.
  apply C_eq; simpl; unfold Rdiv; ring.
Qed.

Lemma fill_ext {A : Type} (g1 g2 : nat -> A) :
  forall count start (a : list A),
    (forall n, (start <= n < start + count)%nat -> g1 n = g2 n) ->
    fill g1 start count a = fill g2 start count a.
Proof.
  induction count as [|count IH]; intros start a Hg; simpl.
  - reflexivity.
  - rewrite (Hg start) by lia. apply IH. intros n Hn. apply Hg. lia.
Qed.

(** The self-energy the first loop re-derives from what the solver returned
    is the Hartree value. *)
Lemma extract_self_energy_hartree (model : Model) :
  beta model <> 0 ->
  regular (beta model) (U model) (hyb model) ->
  exists green_impurity,
    solve model = Ok green_impurity
    /\ length green_impurity = length (hyb model)
    /\ extract_self_energy model green_impurity
       = Ok (replicate (length (hyb model)) (RtoC (U model / 2))).
Proof.
  intros Hb Hreg.
  destruct (solve_Ok model Hb) as (g & Hg & Hlen & Hent).
  exists g. repeat (split; [assumption |]).
  rewrite extract_self_energy_fill by (assumption || lia).
  f_equal. apply fill_eq_of_lookup.
  - rewrite length_replicate. reflexivity.
  - rewrite !length_replicate. lia.
  - intros n x Hx. apply lookup_replicate in Hx as [-> Hn].
    destruct (lookup_lt_is_Some_2 (hyb model) n Hn) as [d Hd].
    unfold sigma_entry.
    rewrite (list_lookup_total_correct _ _ _ (Hent n Hn)).
    unfold green_entry.
    rewrite (list_lookup_total_correct _ _ _ Hd).
    rewrite iwn_val_eq by assumption.
    rewrite Cdiv_1_involutive by (apply (Hreg n d Hd)).
    apply C_eq; simpl; ring.
Qed.

Lemma iteration_hartree dblquad (hop b u : R) (h : list C) :
  b <> 0 ->
  regular b u h ->
  iteration dblquad hop b u h = Ok (hartree_hyb dblquad b u (length h)).
Proof.
  intros Hb Hreg. unfold iteration, pass_with.
  destruct (extract_self_energy_hartree (mkModel hop b u h) Hb Hreg)
    as (g & Hg & Hlen & Hsig).
  cbn [hyb U beta] in Hlen, Hsig.
  rewrite Hg. cbn [bind]. unfold run_selfconsistency.
  rewrite Hsig. cbn [bind].
  rewrite lattice_green_fill. cbn [bind].
  rewrite extract_new_hyb_fill;
    [| assumption
     | rewrite fill_length, length_replicate; lia
     | rewrite length_replicate; lia].
  f_equal. unfold hartree_hyb. rewrite Hlen.
  apply fill_ext. intros n Hn.
  assert (Hn' : (n < length h)%nat) by lia.
  unfold hyb_entry. cbn [beta].
  rewrite (list_lookup_total_correct _ _ _
             (lattice_green_lookup dblquad (mkModel hop b u h) h
                (replicate (length h) (RtoC (u / 2))) n Hn')).
  rewrite lookup_total_replicate_2 by lia.
  reflexivity.
Qed.

(** X9.  With [beta <> 0], a pass of the driver loop forgets the
    hybridization it starts from: from any two hybridizations of the same
    length on which no denominator of the solver vanishes it returns the
    same hybridization, of that length. *)
Theorem iteration_forgets_input dblquad (hop b u : R) (h1 h2 : list C) :
  b <> 0 ->
  length h1 = length h2 ->
  regular b u h1 ->
  regular b u h2 ->
  exists hyb_new,
    iteration dblquad hop b u h1 = Ok hyb_new
    /\ iteration dblquad hop b u h2 = Ok hyb_new
    /\ length hyb_new = length h1.
Proof.
  intros Hb Hlen H1 H2.
  exists (hartree_hyb dblquad b u (length h1)).
  split; [apply iteration_hartree; assumption |].
  split; [rewrite Hlen; apply iteration_hartree; assumption |].
  unfold hartree_hyb. rewrite fill_length. apply length_replicate.
Qed.

Lemma regular_lower_half (b u : R) (h : list C) :
  0 < b ->
  (forall n d, h !! n = Some d -> Im d <= 0) ->
  regular b u h.
Proof.
  intros Hb Hh n d Hd E.
  pose proof (omega_pos b n Hb) as Hw. pose proof (Hh n d Hd) as Hi.
  apply (f_equal Im) in E. simpl in E. lra.
Qed.

Lemma iteration_forgets_input_witness :
  (10 : R) <> 0
  /\ length [C0; C0] = length [C1; C1]
  /\ regular 10 4 [C0; C0]
  /\ regular 10 4 [C1; C1]
  /\ exists hyb_new,
      iteration midpoint_rule (-1) 10 4 [C0; C0] = Ok hyb_new
      /\ iteration midpoint_rule (-1) 10 4 [C1; C1] = Ok hyb_new.
Proof.
  assert (H1 : (10 : R) <> 0) by lra.
  assert (H2 : length [C0; C0] = length [C1; C1]) by reflexivity.
  assert (H3 : regular 10 4 [C0; C0]).
  { apply regular_lower_half; [lra |]. intros n d Hd.
    destruct n as [|[|n]]; simpl in Hd; try discriminate;
      injection Hd as <-; simpl; lra. }
  assert (H4 : regular 10 4 [C1; C1]).
  { apply regular_lower_half; [lra |]. intros n d Hd.
    destruct n as [|[|n]]; simpl in Hd; try discriminate;
      injection Hd as <-; simpl; lra. }
  repeat (split; [assumption |]).
  destruct (iteration_forgets_input midpoint_rule (-1) 10 4 [C0; C0] [C1; C1]
                                    H1 H2 H3 H4) as (h & Ha & Hb & _).
  exists h. split; assumption.
Defined.

Lemma Csub_undo (w x y : C) : Csub (Csub w (Csub (Csub w x) y)) y = x.
Proof. apply C_eq; simpl; ring. Qed.

Lemma hartree_lattice_causal dblquad (b u : R) (n_freq n : nat) :
  0 < b ->
  negative_preserving dblquad ->
  (n < n_freq)%nat ->
  Im (hartree_lattice dblquad b u n_freq n) < 0.
Proof.
  intros Hb Hneg Hn. unfold hartree_lattice.
  apply (lattice_entry_causal dblquad _ _ n (RtoC (u / 2)));
    [simpl; assumption | assumption | | simpl; lra].
  apply lookup_replicate_2. assumption.
Qed.

Lemma hartree_lattice_nonzero dblquad (b u : R) (n_freq n : nat) :
  0 < b ->
  negative_preserving dblquad ->
  (n < n_freq)%nat ->
  hartree_lattice dblquad b u n_freq n <> C0.
Proof.
  intros Hb Hneg Hn E.
  pose proof (hartree_lattice_causal dblquad b u n_freq n Hb Hneg Hn) as Hi.
  rewrite E in Hi. simpl in Hi. lra.
Qed.

Lemma hartree_hyb_lookup dblquad (b u : R) (n_freq n : nat) (d : C) :
  hartree_hyb dblquad b u n_freq !! n = Some d ->
  (n < n_freq)%nat
  /\ d = Csub (Csub (iwn_val b n)
                    (Cdiv C1 (hartree_lattice dblquad b u n_freq n)))
              (RtoC (u / 2)).
Proof.
  unfold hartree_hyb. intros Hd.
  assert (Hn : (n < n_freq)%nat).
  { apply lookup_lt_Some in Hd.
    rewrite fill_length, length_replicate in Hd. assumption. }
  split; [assumption |].
  rewrite fill_lookup in Hd by (rewrite length_replicate; lia).
  case_decide; [| lia]. injection Hd as <-. reflexivity.
Qed.

Lemma hartree_hyb_length dblquad (b u : R) (n_freq : nat) :
  length (hartree_hyb dblquad b u n_freq) = n_freq.
Proof. unfold hartree_hyb. rewrite fill_length. apply length_replicate. Qed.

Lemma hartree_hyb_regular dblquad (b u : R) (n_freq : nat) :
  0 < b ->
  negative_preserving dblquad ->
  regular b u (hartree_hyb dblquad b u n_freq).
Proof.
  intros Hb Hneg n d Hd.
  apply hartree_hyb_lookup in Hd as [Hn ->].
  rewrite <- (iwn_val_eq b n) by lra.
  change (mkC (u / 2) 0) with (RtoC (u / 2)).
  rewrite Csub_undo.
  apply Cdiv_1_nonzero. apply hartree_lattice_nonzero; assumption.
Qed.

Lemma zeros_regular (b u : R) (n_freq : nat) :
  0 < b -> regular b u (replicate n_freq C0).
Proof.
  intros Hb. apply regular_lower_half; [assumption |].
  intros n d Hd. apply lookup_replicate in Hd as [-> _]. simpl. lra.
Qed.

Lemma pass_hartree dblquad (hop b u : R) (h : list C) :
  b <> 0 ->
  regular b u h ->
  pass dblquad hop b u h = hartree_hyb dblquad b u (length h).
Proof.
  intros Hb Hreg. unfold pass.
  rewrite iteration_hartree by assumption. reflexivity.
Qed.

Lemma iter_pass_hartree dblquad (hop b u : R) (n_freq k : nat) :
  0 < b ->
  negative_preserving dblquad ->
  Nat.iter (S k) (pass dblquad hop b u) (replicate n_freq C0)
  = hartree_hyb dblquad b u n_freq.
Proof.
  intros Hb Hneg. induction k as [|k IH].
  - cbn [Nat.iter nat_rect].
    rewrite pass_hartree by (lra || apply zeros_regular; assumption).
    rewrite length_replicate. reflexivity.
  - change (Nat.iter (S (S k)) (pass dblquad hop b u) (replicate n_freq C0))
      with (pass dblquad hop b u
              (Nat.iter (S k) (pass dblquad hop b u) (replicate n_freq C0))).
    rewrite IH.
    rewrite pass_hartree by (lra || apply hartree_hyb_regular; assumption).
    rewrite hartree_hyb_length. reflexivity.
Qed.

(** X10.  With [beta > 0] and an integrator with positive weights the driver
    reaches its fixed point in the first pass: for every number of passes
    [iter_max >= 1] it returns what it returns for one pass. *)
Theorem driver_idempotent dblquad (n_freq : nat) (hop b u : R) (k : nat) :
  0 < b ->
  negative_preserving dblquad ->
  exists frequencies hyb_1,
    main_with dblquad n_freq hop b u 1 = Ok (frequencies, hyb_1)
    /\ main_with dblquad n_freq hop b u (S k) = Ok (frequencies, hyb_1)
    /\ length hyb_1 = n_freq.
Proof.
  intros Hb Hneg. assert (Hb0 : b <> 0) by lra.
  exists ((fun n => (2 * INR n + 1) * PI / b) <$> seq 0 n_freq).
  exists (hartree_hyb dblquad b u n_freq).
  rewrite !main_with_loop.
  rewrite !driver_loop by assumption. cbn [bind].
  rewrite !(iter_pass_hartree dblquad hop b u n_freq) by assumption.
  rewrite frequencies_from_Ok by assumption. cbn [bind].
  repeat split. apply hartree_hyb_length.
Qed.

Lemma driver_idempotent_witness :
  0 < 10
  /\ negative_preserving midpoint_rule
  /\ exists frequencies hyb_1,
      main_with midpoint_rule 200 (-1) 10 4 1 = Ok (frequencies, hyb_1)
      /\ main midpoint_rule = Ok (frequencies, hyb_1).
Proof.
  assert (H1 : 0 < 10) by lra.
  split; [assumption |]. split; [exact midpoint_rule_negative |].
  destruct (driver_idempotent midpoint_rule 200 (-1) 10 4 19 H1
                              midpoint_rule_negative)
    as (fr & h & Ha & Hb & _).
  exists fr, h. split; assumption.
Defined.

(** X11.  Under the same assumptions the hybridization of the first pass
    satisfies the self-consistency condition: the impurity Green function the
    solver computes from it is reproduced by the lattice average, and the
    self-energy re-derived from it is the Hartree value. *)
Theorem first_pass_self_consistent dblquad (n_freq : nat) (hop b u : R) :
  0 < b ->
  negative_preserving dblquad ->
  exists hyb_1 green_impurity,
    iteration dblquad hop b u (replicate n_freq C0) = Ok hyb_1
    /\ solve (mkModel hop b u hyb_1) = Ok green_impurity
    /\ extract_self_energy (mkModel hop b u hyb_1) green_impurity
       = Ok (replicate n_freq (RtoC (u / 2)))
    /\ lattice_green dblquad (mkModel hop b u hyb_1) green_impurity
                     (replicate n_freq (RtoC (u / 2)))
       = Ok green_impurity
    /\ run_selfconsistency dblquad (mkModel hop b u hyb_1) green_impurity
       = Ok hyb_1.
Proof.
  intros Hb Hneg. assert (Hb0 : b <> 0) by lra.
  set (h1 := hartree_hyb dblquad b u n_freq).
  assert (Hlen1 : length h1 = n_freq) by apply hartree_hyb_length.
  assert (Hreg : regular b u h1) by (apply hartree_hyb_regular; assumption).
  destruct (solve_Ok (mkModel hop b u h1) Hb0) as (g & Hg & Hlen & Hent).
  cbn [hyb] in Hlen, Hent. rewrite Hlen1 in Hlen, Hent.
  destruct (extract_self_energy_hartree (mkModel hop b u h1) Hb0 Hreg)
    as (g' & Hg' & _ & Hsig).
  rewrite Hg in Hg'. injection Hg' as <-.
  cbn [hyb U] in Hsig. rewrite Hlen1 in Hsig.
  exists h1, g.
  split.
  { rewrite iteration_hartree by (assumption || apply zeros_regular; assumption).
    rewrite length_replicate. reflexivity. }
  split; [assumption |]. split; [assumption |].
  assert (Hlatt : lattice_green dblquad (mkModel hop b u h1) g
                    (replicate n_freq (RtoC (u / 2))) = Ok g).
  { rewrite lattice_green_fill. f_equal. apply fill_eq_of_lookup.
    - rewrite length_replicate. reflexivity.
    - rewrite length_replicate. reflexivity.
    - intros n x Hx.
      assert (Hn : (n < n_freq)%nat)
        by (apply lookup_lt_Some in Hx; lia).
      rewrite (Hent n Hn) in Hx. injection Hx as <-.
      unfold green_entry. cbn [beta hyb U].
      destruct (lookup_lt_is_Some_2 h1 n ltac:(lia)) as [d Hd].
      rewrite (list_lookup_total_correct _ _ _ Hd).
      apply hartree_hyb_lookup in Hd as [_ ->].
      rewrite Csub_undo.
      rewrite Cdiv_1_involutive
        by (apply hartree_lattice_nonzero; assumption).
      reflexivity. }
  split; [assumption |].
  pose proof (iteration_hartree dblquad hop b u h1 Hb0 Hreg) as Hit.
  unfold iteration, pass_with in Hit. rewrite Hg in Hit. cbn [bind] in Hit.
  rewrite Hit, Hlen1. reflexivity.
Qed.

Lemma first_pass_self_consistent_witness :
  0 < 10
  /\ negative_preserving midpoint_rule
  /\ exists hyb_1 green_impurity,
      iteration midpoint_rule (-1) 10 4 (replicate 3 C0) = Ok hyb_1
      /\ solve (mkModel (-1) 10 4 hyb_1) = Ok green_impurity
      /\ run_selfconsistency midpoint_rule (mkModel (-1) 10 4 hyb_1)
                             green_impurity
         = Ok hyb_1.
Proof.
  assert (H1 : 0 < 10) by lra.
  split; [assumption |]. split; [exact midpoint_rule_negative |].
  destruct (first_pass_self_consistent midpoint_rule 3 (-1) 10 4 H1
                                       midpoint_rule_negative)
    as (h & g & Ha & Hb & _ & _ & Hc).
  exists h, g. repeat split; assumption.
Defined.

(** ** Edge cases of the driver *)

(** X12.  With [beta = 0] and at least one frequency the driver raises
    [ZeroDivisionError], for every number of passes: in the solver when there
    is a pass, in the list of frequencies when there is none. *)
Theorem main_with_beta_zero dblquad (n_freq : nat) (hop u : R)
        (iter_max : nat) :
  (0 < n_freq)%nat ->
  main_with dblquad n_freq hop 0 u iter_max = Raise ZeroDivisionError.
Proof.
  intros Hn. destruct n_freq as [|n_freq]; [lia |].
  rewrite !main_with_loop.
  destruct iter_max as [|iter_max].
  - cbn [for_from bind frequencies_from]. unfold float_div.
    destruct (Req_dec_T 0 0) as [_|E]; [reflexivity | contradiction].
  - cbn [for_from replicate]. unfold iteration, pass_with.
    rewrite solve_beta_zero. reflexivity.
Qed.

Lemma main_with_beta_zero_witness :
  (0 < 200)%nat
  /\ main_with midpoint_rule 200 (-1) 0 4 20 = Raise ZeroDivisionError.
Proof.
  assert (H1 : (0 < 200)%nat) by lia.
  split; [assumption |].
  exact (main_with_beta_zero midpoint_rule 200 (-1) 4 20 H1).
Defined.

Lemma driver_loop_empty dblquad (hop b u : R) :
  forall count start,
    for_from start count (fun ii hyb => iteration dblquad hop b u hyb) []
    = Ok [].
Proof.
  induction count as [|count IH]; intros start.
  - reflexivity.
  - cbn [for_from].
    change (iteration dblquad hop b u []) with (@Ok (list C) []).
    cbn [bind]. apply IH.
Qed.

(** X13.  Without frequencies the driver returns two empty arrays, for every
    number of passes and every [beta], zero included: no division is ever
    evaluated. *)
Theorem main_with_no_frequency dblquad (hop b u : R) (iter_max : nat) :
  main_with dblquad 0 hop b u iter_max = Ok ([], []).
Proof.
  rewrite !main_with_loop. cbn [replicate].
  rewrite driver_loop_empty. reflexivity.
Qed.

(** X14.  For [beta > 0] the frequencies the driver returns are positive,
    equally spaced by [2 pi / beta], and are the imaginary parts of the purely
    imaginary [iwn] the solver and the self-consistency step evaluate at the
    same index. *)
Theorem frequency_grid dblquad (n_freq : nat) (hop b u : R) (iter_max n : nat) :
  0 < b ->
  (n < n_freq)%nat ->
  exists frequencies hyb_last w,
    main_with dblquad n_freq hop b u iter_max = Ok (frequencies, hyb_last)
    /\ frequencies !! n = Some w
    /\ 0 < w
    /\ iwn_of b n = Ok (mkC 0 w)
    /\ (forall w', frequencies !! S n = Some w' -> w' - w = 2 * PI / b).
Proof.
  intros Hb Hn. assert (Hb0 : b <> 0) by lra.
  rewrite !main_with_loop.
  rewrite driver_loop by assumption. cbn [bind].
  rewrite frequencies_from_Ok by assumption. cbn [bind].
  do 3 eexists. split; [reflexivity |].
  split.
  { rewrite list_lookup_fmap, lookup_seq_lt by assumption. reflexivity. }
  split; [apply omega_pos; assumption |].
  split.
  { rewrite iwn_of_Ok by assumption. f_equal. apply iwn_val_eq. assumption. }
  intros w' Hw'.
  assert (HSn : (S n < n_freq)%nat).
  { apply lookup_lt_Some in Hw'.
    rewrite length_fmap, length_seq in Hw'. assumption. }
  rewrite list_lookup_fmap, lookup_seq_lt in Hw' by assumption.
  change (Some ((2 * INR (S n) + 1) * PI / b) = Some w') in Hw'.
  assert (Ew : w' = (2 * INR (S n) + 1) * PI / b) by congruence.
  rewrite Ew. change (0 + n)%nat with n.
  rewrite S_INR. field. assumption.
Qed.

Lemma frequency_grid_witness :
  0 < 10
  /\ (0 < 200)%nat
  /\ exists frequencies hyb_last w,
      main midpoint_rule = Ok (frequencies, hyb_last)
      /\ frequencies !! 0%nat = Some w
      /\ 0 < w.
Proof.
  assert (H1 : 0 < 10) by lra.
  assert (H2 : (0 < 200)%nat) by lia.
  repeat (split; [assumption |]).
  destruct (frequency_grid midpoint_rule 200 (-1) 10 4 20 0 H1 H2)
    as (fr & h & w & Ha & Hb & Hc & _).
  exists fr, h, w. repeat split; assumption.
Defined.

(** ** The order of the arguments of the integrands *)

Lemma for_from_ext {St : Type} (body1 body2 : nat -> St -> result St) :
  (forall n st, body1 n st = body2 n st) ->
  forall count start st,
    for_from start count body1 st = for_from start count body2 st.
Proof.
  intros Hb. induction count as [|count IH]; intros start st.
  - reflexivity.
  - cbn [for_from]. rewrite Hb.
    destruct (body2 start st) as [st'|e]; cbn [bind]; [apply IH | reflexivity].
Qed.

Lemma lattice_integrand_swap (model : Model) (self_energy : list C) (n : nat)
      (kx ky : R) :
  green_lattice_scalar_real model ky kx self_energy n
  = green_lattice_scalar_real model kx ky self_energy n
  /\ green_lattice_scalar_imag model ky kx self_energy n
     = green_lattice_scalar_imag model kx ky self_energy n.
Proof.
  unfold green_lattice_scalar_real, green_lattice_scalar_imag, Model_eps_k.
  rewrite (Rplus_comm (cos ky) (cos kx)). split; reflexivity.
Qed.

Lemma lattice_entry_swap dblquad (model : Model) (self_energy : list C)
      (n : nat) :
  lattice_entry (swap_arguments dblquad) model self_energy n
  = lattice_entry dblquad model self_energy n.
Proof.
  unfold lattice_entry, swap_arguments.
  assert (Er : (fun y x => green_lattice_scalar_real model x y self_energy n)
               = (fun kx ky =>
                    green_lattice_scalar_real model kx ky self_energy n)).
  { apply functional_extensionality; intros y.
    apply functional_extensionality; intros x.
    apply (lattice_integrand_swap model self_energy n y x). }
  assert (Ei : (fun y x => green_lattice_scalar_imag model x y self_energy n)
               = (fun kx ky =>
                    green_lattice_scalar_imag model kx ky self_energy n)).
  { apply functional_extensionality; intros y.
    apply functional_extensionality; intros x.
    apply (lattice_integrand_swap model self_energy n y x). }
  rewrite Er, Ei. reflexivity.
Qed.

Lemma run_selfconsistency_swap dblquad (model : Model)
      (green_impurity : list C) :
  run_selfconsistency (swap_arguments dblquad) model green_impurity
  = run_selfconsistency dblquad model green_impurity.
Proof.
  unfold run_selfconsistency.
  destruct (extract_self_energy model green_impurity) as [sigma|e];
    [| reflexivity].
  cbn [bind]. rewrite !lattice_green_fill. cbn [bind].
  f_equal.
  apply fill_ext. intros n _. apply lattice_entry_swap.
Qed.

(** X15.  [dblquad] hands the inner variable to its integrand first, while
    the integrands are written with [kx] first.  Nothing the code computes
    depends on that order: with an integrator of the opposite convention the
    first moment, the lattice Green function, the self-consistency step and
    the driver return the same results. *)
Theorem argument_order_irrelevant dblquad (model : Model)
        (green_impurity self_energy : list C)
        (n_freq : nat) (hop b u : R) (iter_max : nat) :
  get_hyb_fm (swap_arguments dblquad) = get_hyb_fm dblquad
  /\ lattice_green (swap_arguments dblquad) model green_impurity self_energy
     = lattice_green dblquad model green_impurity self_energy
  /\ run_selfconsistency (swap_arguments dblquad) model green_impurity
     = run_selfconsistency dblquad model green_impurity
  /\ main_with (swap_arguments dblquad) n_freq hop b u iter_max
     = main_with dblquad n_freq hop b u iter_max.
Proof.
  split; [| split; [| split]].
  - unfold get_hyb_fm, swap_arguments.
    assert (E1 : (fun y x => eps_k x y) = eps_k).
    { apply functional_extensionality; intros y.
      apply functional_extensionality; intros x.
      unfold eps_k. rewrite (Rplus_comm (cos x)). reflexivity. }
    assert (E2 : (fun y x => eps_k_squared x y) = eps_k_squared).
    { apply functional_extensionality; intros y.
      apply functional_extensionality; intros x.
      unfold eps_k_squared, eps_k. rewrite (Rplus_comm (cos x)).
      reflexivity. }
    rewrite E1, E2. reflexivity.
  - rewrite !lattice_green_fill. f_equal.
    apply fill_ext. intros n _. apply lattice_entry_swap.
  - apply run_selfconsistency_swap.
  - rewrite !main_with_loop.
    rewrite (for_from_ext
               (fun ii hyb => iteration (swap_arguments dblquad) hop b u hyb)
               (fun ii hyb => iteration dblquad hop b u hyb));
      [reflexivity |].
    intros ii h. unfold iteration, pass_with.
    destruct (solve (mkModel hop b u h)) as [g|e]; [| reflexivity].
    cbn [bind]. apply run_selfconsistency_swap.
Qed.

(** ** No division by zero along the driver *)

Lemma pass_divisions dblquad (hop b u : R) (h : list C) :
  0 < b ->
  negative_preserving dblquad ->
  regular b u h ->
  exists green_impurity green_impurity_new,
    solve (mkModel hop b u h) = Ok green_impurity
    /\ Forall (fun g => g <> C0) green_impurity
    /\ extract_self_energy (mkModel hop b u h) green_impurity
       = Ok (replicate (length h) (RtoC (u / 2)))
    /\ lattice_green dblquad (mkModel hop b u h) green_impurity
                     (replicate (length h) (RtoC (u / 2)))
       = Ok green_impurity_new
    /\ Forall (fun l => l <> C0) green_impurity_new.
Proof.
  intros Hb Hneg Hreg. assert (Hb0 : b <> 0) by lra.
  destruct (solve_Ok (mkModel hop b u h) Hb0) as (g & Hg & Hlen & Hent).
  destruct (extract_self_energy_hartree (mkModel hop b u h) Hb0 Hreg)
    as (g' & Hg' & _ & Hsig).
  rewrite Hg in Hg'. injection Hg' as <-.
  cbn [hyb U beta] in Hlen, Hent, Hsig.
  exists g. eexists.
  split; [assumption |].
  split.
  { apply Forall_lookup. intros n x Hx.
    assert (Hn : (n < length h)%nat) by (apply lookup_lt_Some in Hx; lia).
    rewrite (Hent n Hn) in Hx. injection Hx as <-.
    destruct (lookup_lt_is_Some_2 h n Hn) as [d Hd].
    unfold green_entry. cbn [hyb U beta].
    rewrite (list_lookup_total_correct _ _ _ Hd).
    rewrite iwn_val_eq by assumption.
    apply Cdiv_1_nonzero. apply (Hreg n d Hd). }
  split; [assumption |].
  split; [apply lattice_green_fill |].
  apply Forall_lookup. intros n x Hx.
  assert (Hn : (n < length g)%nat).
  { apply lookup_lt_Some in Hx.
    rewrite fill_length, length_replicate in Hx. assumption. }
  rewrite lattice_green_lookup in Hx by assumption. injection Hx as <-.
  apply (hartree_lattice_nonzero dblquad b u (length h) n); [assumption .. |].
  lia.
Qed.

(** X16.  With [beta > 0] and an integrator with positive weights no
    division of the driver ever meets a zero denominator: after any number of
    passes the hybridization leaves every denominator of the solver nonzero,
    and the impurity and lattice Green functions of the next pass, which the
    self-consistency step inverts, vanish nowhere. *)
Theorem driver_never_singular dblquad (n_freq : nat) (hop b u : R) (k : nat) :
  0 < b ->
  negative_preserving dblquad ->
  exists hyb_k green_impurity green_impurity_new,
    for_range k (fun ii hyb => iteration dblquad hop b u hyb)
              (replicate n_freq C0) = Ok hyb_k
    /\ regular b u hyb_k
    /\ solve (mkModel hop b u hyb_k) = Ok green_impurity
    /\ Forall (fun g => g <> C0) green_impurity
    /\ extract_self_energy (mkModel hop b u hyb_k) green_impurity
       = Ok (replicate n_freq (RtoC (u / 2)))
    /\ lattice_green dblquad (mkModel hop b u hyb_k) green_impurity
                     (replicate n_freq (RtoC (u / 2)))
       = Ok green_impurity_new
    /\ Forall (fun l => l <> C0) green_impurity_new.
Proof.
  intros Hb Hneg. assert (Hb0 : b <> 0) by lra.
  assert (Hk : exists hyb_k,
             for_range k (fun ii hyb => iteration dblquad hop b u hyb)
                       (replicate n_freq C0) = Ok hyb_k
             /\ regular b u hyb_k /\ length hyb_k = n_freq).
  { unfold for_range. rewrite driver_loop by assumption.
    destruct k as [|k].
    - exists (replicate n_freq C0).
      split; [reflexivity |].
      split; [apply zeros_regular; assumption | apply length_replicate].
    - exists (hartree_hyb dblquad b u n_freq).
      split; [rewrite iter_pass_hartree by assumption; reflexivity |].
      split; [apply hartree_hyb_regular; assumption
             | apply hartree_hyb_length]. }
  destruct Hk as (h & Hh & Hreg & Hlen).
  destruct (pass_divisions dblquad hop b u h Hb Hneg Hreg)
    as (g & l & Hg & Hgn & Hs & Hl & Hln).
  rewrite Hlen in Hs, Hl.
  exists h, g, l. repeat (split; [assumption |]). assumption.
Qed.

Lemma driver_never_singular_witness :
  0 < 10
  /\ negative_preserving midpoint_rule
  /\ exists hyb_k green_impurity,
      for_range 20 (fun ii hyb => iteration midpoint_rule (-1) 10 4 hyb)
                (replicate 200 C0) = Ok hyb_k
      /\ solve (mkModel (-1) 10 4 hyb_k) = Ok green_impurity
      /\ Forall (fun g => g <> C0) green_impurity.
Proof.
  assert (H1 : 0 < 10) by lra.
  split; [assumption |]. split; [exact midpoint_rule_negative |].
  destruct (driver_never_singular midpoint_rule 200 (-1) 10 4 20 H1
                                  midpoint_rule_negative)
    as (h & g & l & Ha & _ & Hb & Hc & _).
  exists h, g. repeat split; assumption.
Defined.
